(** * WebRtcSession: the session-signalling state machine

    A shallow embedding of [talk/app/webrtc/webrtcsession.cc].  The session
    object becomes a record, every method a function that takes the session
    and returns the updated one, and every call the session makes on one of
    its collaborators (channel manager, channels, transport proxies, observer,
    logger) is appended to a trace kept beside the fields, so that "is called
    once", "is called before" and "is not called" can be stated.

    All methods run on the signalling thread (the source asserts
    [signaling_thread()->IsCurrent()]); the embedding is sequential. *)

From stdpp Require Import base option list strings gmap.
From Stdlib Require Import ZArith.

Open Scope string_scope.
Open Scope list_scope.

(** ** Constants of the translation unit *)

Definition MSG_CANDIDATE_TIMEOUT : Z := 101.

(** We allow 30 seconds to establish a connection. *)
Definition kCallSetupTimeout : Z := 30 * 1000.

(** One candidate per transport channel: rtp and rtcp of the voice channel,
    rtp and rtcp of the video channel. *)
Definition kAllowedCandidates : nat := 4.

Definition kRtpVideoChannelStr : string := "video_rtp".
Definition kRtcpVideoChannelStr : string := "video_rtcp".

(** Content names of the two proxies.  The constants belong to libjingle's
    [talk/p2p/base/constants], outside this translation unit; they are taken
    with the values they have there, and only their being distinct is used. *)
Definition CN_AUDIO : string := "audio".
Definition CN_VIDEO : string := "video".

(** ** Data model *)

(** Modelled from the spec: the [State] enumeration of [BaseSession] is
    declared outside this translation unit; the spec lists the states
    INIT, SENT_INITIATE and RECEIVED_ACCEPT. *)
Inductive State : Type :=
  | STATE_INIT
  | STATE_SENTINITIATE
  | STATE_RECEIVEDACCEPT.

Global Instance State_eq_dec : EqDecision State.
Proof. solve_decision. Defined.

Inductive SecureMediaPolicy : Type :=
  | SEC_DISABLED
  | SEC_ENABLED
  | SEC_REQUIRED.

Inductive MediaType : Type :=
  | MEDIA_TYPE_AUDIO
  | MEDIA_TYPE_VIDEO.

Global Instance MediaType_eq_dec : EqDecision MediaType.
Proof. solve_decision. Defined.

Inductive LoggingSeverity : Type :=
  | LS_INFO
  | LS_WARNING
  | LS_ERROR.

(** [cricket::Candidate]: the channel name is the key the session looks at;
    the other fields are carried along. *)
Record Candidate : Type := mkCandidate {
  name : string;
  protocol : string;
  address : string
}.

Definition Candidates : Type := list Candidate.

(** [cricket::MediaContentDescription], [cricket::ContentInfo] and
    [cricket::SessionDescription], reduced to what [NegotiationDone] reads. *)
Record MediaContentDescription : Type := mkMediaContentDescription {
  type : MediaType;
  streams : list string
}.

Record ContentInfo : Type := mkContentInfo {
  content_name : string;
  description : MediaContentDescription
}.

Record SessionDescription : Type := mkSessionDescription {
  contents : list ContentInfo
}.

Record MediaSessionOptions : Type := mkMediaSessionOptions {
  has_audio : bool;
  has_video : bool
}.

(** A voice or video channel: the session only switches it on and mutes it. *)
Record Channel : Type := mkChannel {
  channel_content : string;
  rtcp : bool;
  enabled : bool;
  muted : bool
}.

(** [cricket::TransportProxy]: the session asks whether it is negotiated. *)
Record TransportProxy : Type := mkTransportProxy {
  negotiated : bool
}.

(** [cricket::Transport] as seen by [OnTransportWritable]. *)
Record Transport : Type := mkTransport {
  HasChannels : bool;
  writable : bool
}.

Definition Observer : Type := nat.
Definition Handler : Type := nat.

(** A delayed message waiting in the queue of the signalling thread. *)
Record DelayedMessage : Type := mkDelayedMessage {
  phandler : Handler;
  message_id : Z;
  msTrigger : Z
}.

Record Thread : Type := mkThread {
  now : Z;
  dmsgq : list DelayedMessage
}.

(** The channel manager the session was constructed with.  A null result of
    a creation call is [None]. *)
Record ChannelManager : Type := mkChannelManager {
  CreateVoiceChannel : string -> bool -> option Channel;
  CreateVideoChannel : string -> bool -> Channel -> option Channel
}.

(** The description factory owned by the session: its secure policy and its
    two builders (a null result is [None]). *)
Record MediaSessionDescriptionFactory : Type := mkFactory {
  secure : SecureMediaPolicy;
  CreateOffer :
    SecureMediaPolicy -> MediaSessionOptions ->
    option SessionDescription -> option SessionDescription;
  CreateAnswer :
    SecureMediaPolicy -> option SessionDescription -> MediaSessionOptions ->
    option SessionDescription -> option SessionDescription
}.

(** Calls the session makes on its collaborators, in program order. *)
Inductive Effect : Type :=
  | LOG (sev : LoggingSeverity) (msg : string)
  | DestroyVoiceChannel (c : Channel)
  | DestroyVideoChannel (c : Channel)
  | SpeculativelyConnectAllTransportChannels
  | SignalState (st : State)
  | SignalError
  | OnCandidatesReady (o : Observer) (cands : Candidates)
  | CompleteNegotiation (content : string)
  | OnRemoteCandidates (content : string) (cands : Candidates)
  | Enable (m : MediaType) (b : bool)
  | Mute (m : MediaType) (b : bool)
  | OnSignalingReady.

(** The session object: the members of [BaseSession] that the translation
    unit touches, followed by the members of [WebRtcSession]. *)
Record Session : Type := mkSession {
  this : Handler;
  state : State;
  local_description : option SessionDescription;
  remote_description : option SessionDescription;
  transports_ : gmap string TransportProxy;
  signaling_thread : Thread;
  channel_manager_ : ChannelManager;
  voice_channel_ : option Channel;
  video_channel_ : option Channel;
  observer_ : option Observer;
  session_desc_factory_ : MediaSessionDescriptionFactory;
  local_candidates_ : Candidates;
  trace : list Effect
}.

(** Field updates. *)
Definition set_state (st : State) (s : Session) : Session :=
  mkSession (this s) st (local_description s) (remote_description s)
    (transports_ s) (signaling_thread s) (channel_manager_ s)
    (voice_channel_ s) (video_channel_ s) (observer_ s)
    (session_desc_factory_ s) (local_candidates_ s) (trace s).

Definition set_local_description (d : option SessionDescription) (s : Session)
  : Session :=
  mkSession (this s) (state s) d (remote_description s)
    (transports_ s) (signaling_thread s) (channel_manager_ s)
    (voice_channel_ s) (video_channel_ s) (observer_ s)
    (session_desc_factory_ s) (local_candidates_ s) (trace s).

Definition set_remote_description (d : option SessionDescription) (s : Session)
  : Session :=
  mkSession (this s) (state s) (local_description s) d
    (transports_ s) (signaling_thread s) (channel_manager_ s)
    (voice_channel_ s) (video_channel_ s) (observer_ s)
    (session_desc_factory_ s) (local_candidates_ s) (trace s).

Definition set_transports (m : gmap string TransportProxy) (s : Session)
  : Session :=
  mkSession (this s) (state s) (local_description s) (remote_description s)
    m (signaling_thread s) (channel_manager_ s)
    (voice_channel_ s) (video_channel_ s) (observer_ s)
    (session_desc_factory_ s) (local_candidates_ s) (trace s).

Definition set_signaling_thread (t : Thread) (s : Session) : Session :=
  mkSession (this s) (state s) (local_description s) (remote_description s)
    (transports_ s) t (channel_manager_ s)
    (voice_channel_ s) (video_channel_ s) (observer_ s)
    (session_desc_factory_ s) (local_candidates_ s) (trace s).

Definition set_voice_channel (c : option Channel) (s : Session) : Session :=
  mkSession (this s) (state s) (local_description s) (remote_description s)
    (transports_ s) (signaling_thread s) (channel_manager_ s)
    c (video_channel_ s) (observer_ s)
    (session_desc_factory_ s) (local_candidates_ s) (trace s).

Definition set_video_channel (c : option Channel) (s : Session) : Session :=
  mkSession (this s) (state s) (local_description s) (remote_description s)
    (transports_ s) (signaling_thread s) (channel_manager_ s)
    (voice_channel_ s) c (observer_ s)
    (session_desc_factory_ s) (local_candidates_ s) (trace s).

Definition set_observer (o : option Observer) (s : Session) : Session :=
  mkSession (this s) (state s) (local_description s) (remote_description s)
    (transports_ s) (signaling_thread s) (channel_manager_ s)
    (voice_channel_ s) (video_channel_ s) o
    (session_desc_factory_ s) (local_candidates_ s) (trace s).

Definition set_factory (f : MediaSessionDescriptionFactory) (s : Session)
  : Session :=
  mkSession (this s) (state s) (local_description s) (remote_description s)
    (transports_ s) (signaling_thread s) (channel_manager_ s)
    (voice_channel_ s) (video_channel_ s) (observer_ s)
    f (local_candidates_ s) (trace s).

Definition set_local_candidates (l : Candidates) (s : Session) : Session :=
  mkSession (this s) (state s) (local_description s) (remote_description s)
    (transports_ s) (signaling_thread s) (channel_manager_ s)
    (voice_channel_ s) (video_channel_ s) (observer_ s)
    (session_desc_factory_ s) l (trace s).

(** Record one call on a collaborator. *)
Definition emit (e : Effect) (s : Session) : Session :=
  mkSession (this s) (state s) (local_description s) (remote_description s)
    (transports_ s) (signaling_thread s) (channel_manager_ s)
    (voice_channel_ s) (video_channel_ s) (observer_ s)
    (session_desc_factory_ s) (local_candidates_ s) (trace s ++ [e]).

(** ** Construction *)

(** The constructor: [observer_(NULL)], both channel pointers null, no local
    candidate; [BaseSession] starts in [STATE_INIT] without descriptions or
    proxies. *)
Definition WebRtcSession (self : Handler) (channel_manager : ChannelManager)
    (signaling : Thread) (factory : MediaSessionDescriptionFactory) : Session :=
  {| this := self;
     state := STATE_INIT;
     local_description := None;
     remote_description := None;
     transports_ := ∅;
     signaling_thread := signaling;
     channel_manager_ := channel_manager;
     voice_channel_ := None;
     video_channel_ := None;
     observer_ := None;
     session_desc_factory_ := factory;
     local_candidates_ := [];
     trace := [] |}.

(** ** Channel life cycle *)

Definition set_secure (p : SecureMediaPolicy)
    (f : MediaSessionDescriptionFactory) : MediaSessionDescriptionFactory :=
  {| secure := p; CreateOffer := CreateOffer f; CreateAnswer := CreateAnswer f |}.

Definition set_secure_policy (p : SecureMediaPolicy) (s : Session) : Session :=
  set_factory (set_secure p (session_desc_factory_ s)) s.

(** [Terminate]: each scoped pointer that holds a channel releases it to
    the channel manager's destroy call. *)
Definition Terminate (s : Session) : Session :=
  let s1 :=
    match voice_channel_ s with
    | Some c => emit (DestroyVoiceChannel c) (set_voice_channel None s)
    | None => s
    end in
  match video_channel_ s1 with
  | Some c => emit (DestroyVideoChannel c) (set_video_channel None s1)
  | None => s1
  end.

(** [CreateChannels]: [reset] stores whatever the manager returned, null
    included, and the null test follows. *)
Definition CreateChannels (s : Session) : bool * Session :=
  let s1 :=
    set_voice_channel (CreateVoiceChannel (channel_manager_ s) CN_AUDIO true) s in
  match voice_channel_ s1 with
  | None => (false, emit (LOG LS_ERROR "Failed to create voice channel") s1)
  | Some voice =>
      let s2 :=
        set_video_channel
          (CreateVideoChannel (channel_manager_ s1) CN_VIDEO true voice) s1 in
      match video_channel_ s2 with
      | None => (false, emit (LOG LS_ERROR "Failed to create video channel") s2)
      | Some _ => (true, emit SpeculativelyConnectAllTransportChannels s2)
      end
  end.

Definition Initialize (s : Session) : bool * Session :=
  CreateChannels (set_secure_policy SEC_REQUIRED s).

(** ** Candidate aggregation *)

(** [CheckCandidate]: linear scan of [local_candidates_] that stops at the
    first entry with the given channel name. *)
Fixpoint CheckCandidate_scan (l : Candidates) (n : string) : bool :=
  match l with
  | [] => false
  | c :: rest =>
      if String.eqb (name c) n then true else CheckCandidate_scan rest n
  end.

Definition CheckCandidate (n : string) (s : Session) : bool :=
  CheckCandidate_scan (local_candidates_ s) n.

(** Body of the loop of [InsertTransportCandidates]. *)
Definition insert_candidate (s : Session) (c : Candidate) : Session :=
  if CheckCandidate (name c) s then s
  else set_local_candidates (local_candidates_ s ++ [c]) s.

Definition InsertTransportCandidates (candidates : Candidates) (s : Session)
  : Session :=
  foldl insert_candidate s candidates.

Definition OnTransportCandidatesReady (transport : Transport)
    (candidates : Candidates) (s : Session) : Session :=
  if (List.length (local_candidates_ s) =? kAllowedCandidates)%nat then s
  else
    let s1 := InsertTransportCandidates candidates s in
    if (List.length (local_candidates_ s1) =? kAllowedCandidates)%nat then
      match observer_ s1 with
      | Some o => emit (OnCandidatesReady o (local_candidates_ s1)) s1
      | None => s1
      end
    else s1.

(** Modelled from the spec: the observer is registered through an inline
    setter of the class declaration, which is not part of this translation
    unit; it stores the pointer in [observer_]. *)
Definition RegisterObserver (o : option Observer) (s : Session) : Session :=
  set_observer o s.

(** ** Remote candidates *)

(** The test of the partition loop: the name compares equal to one of the
    two video channel names. *)
Definition is_video_candidate (c : Candidate) : bool :=
  String.eqb (name c) kRtpVideoChannelStr
  || String.eqb (name c) kRtcpVideoChannelStr.

(** Body of the partition loop; the pair is (audio_candidates,
    video_candidates). *)
Definition partition_step (acc : Candidates * Candidates) (c : Candidate)
  : Candidates * Candidates :=
  if is_video_candidate c then (acc.1, acc.2 ++ [c])
  else (acc.1 ++ [c], acc.2).

Definition partition_candidates (candidates : Candidates)
  : Candidates * Candidates :=
  foldl partition_step ([], []) candidates.

Definition GetTransportProxy (content : string) (s : Session)
  : option TransportProxy :=
  transports_ s !! content.

(** Modelled from the spec: [TransportProxy::CompleteNegotiation] lives in
    the transport layer; the proxy "becomes negotiated". *)
Definition Proxy_CompleteNegotiation (content : string) (s : Session)
  : Session :=
  emit (CompleteNegotiation content)
    (set_transports (<[content := mkTransportProxy true]> (transports_ s)) s).

(** One of the two blocks that follow the partition loop; they differ in
    the content name and in the text of the log line only. *)
Definition forward_bucket (content : string) (missing : string)
    (bucket : Candidates) (s : Session) : Session :=
  match bucket with
  | [] => s
  | _ :: _ =>
      match GetTransportProxy content s with
      | Some proxy =>
          let s1 :=
            if negotiated proxy then s
            else Proxy_CompleteNegotiation content s in
          emit (OnRemoteCandidates content bucket) s1
      | None => emit (LOG LS_INFO missing) s
      end
  end.

Definition SetRemoteCandidates (candidates : Candidates) (s : Session)
  : Session :=
  let buckets := partition_candidates candidates in
  let s1 :=
    forward_bucket CN_AUDIO "No audio TransportProxy exists" buckets.1 s in
  forward_bucket CN_VIDEO "No video TransportProxy exists" buckets.2 s1.

Definition OnTransportRequestSignaling (transport : Transport) (s : Session)
  : Session :=
  emit OnSignalingReady s.

(** ** Connection watchdog *)

(** Modelled from the spec: the message queue of the signalling thread is
    libjingle's; [Clear] cancels the pending events of one handler with one
    message id, [PostDelayed] schedules one event the given number of
    milliseconds in the future. *)
Definition Clear (h : Handler) (id : Z) (t : Thread) : Thread :=
  {| now := now t;
     dmsgq := filter (λ m, ¬ (phandler m = h ∧ message_id m = id)) (dmsgq t) |}.

Definition PostDelayed (cmsDelay : Z) (h : Handler) (id : Z) (t : Thread)
  : Thread :=
  {| now := now t;
     dmsgq := dmsgq t ++ [mkDelayedMessage h id (now t + cmsDelay)] |}.

Definition OnTransportWritable (transport : Transport) (s : Session)
  : Session :=
  let s1 :=
    set_signaling_thread
      (Clear (this s) MSG_CANDIDATE_TIMEOUT (signaling_thread s)) s in
  if HasChannels transport && negb (writable transport) then
    set_signaling_thread
      (PostDelayed kCallSetupTimeout (this s1) MSG_CANDIDATE_TIMEOUT
         (signaling_thread s1)) s1
  else s1.

Definition OnTransportConnecting (transport : Transport) (s : Session)
  : Session :=
  OnTransportWritable transport s.

Definition OnTransportChannelGone (transport : Transport) (n : string)
    (s : Session) : Session := s.

Definition OnMessage (msg : DelayedMessage) (s : Session) : Session :=
  if (message_id msg =? MSG_CANDIDATE_TIMEOUT)%Z then
    emit SignalError
      (emit (LOG LS_ERROR "Transport is not in writable state.") s)
  else s.

(** Modelled from the spec: the signalling thread runs for [cms]
    milliseconds.  Every event whose trigger time has been reached leaves
    the queue, and those addressed to this session are handed to
    [OnMessage], in the order in which they were posted. *)
Definition deliver (s : Session) (msg : DelayedMessage) : Session :=
  if decide (phandler msg = this s) then OnMessage msg s else s.

Definition ProcessMessages (cms : Z) (s : Session) : Session :=
  let t := (now (signaling_thread s) + cms)%Z in
  let fired := filter (λ m, (msTrigger m ≤ t)%Z) (dmsgq (signaling_thread s)) in
  let kept := filter (λ m, ¬ (msTrigger m ≤ t)%Z) (dmsgq (signaling_thread s)) in
  foldl deliver (set_signaling_thread {| now := t; dmsgq := kept |} s) fired.

(** The watchdog events of this session that are still pending. *)
Definition is_watchdog (h : Handler) (m : DelayedMessage) : Prop :=
  phandler m = h ∧ message_id m = MSG_CANDIDATE_TIMEOUT.

Global Instance is_watchdog_dec h m : Decision (is_watchdog h m).
Proof. unfold is_watchdog. apply _. Defined.

Definition pending_watchdogs (s : Session) : list DelayedMessage :=
  filter (is_watchdog (this s)) (dmsgq (signaling_thread s)).

(** Every other event of the queue. *)
Definition other_events (s : Session) : list DelayedMessage :=
  filter (λ m, ¬ is_watchdog (this s) m) (dmsgq (signaling_thread s)).

(** What the session does when the watchdog fires. *)
Definition watchdog_fired : list Effect :=
  [LOG LS_ERROR "Transport is not in writable state."; SignalError].

(** ** Offer and answer *)

Definition ProvideOffer (options : MediaSessionOptions) (s : Session)
  : option SessionDescription * Session :=
  if negb (has_video options) then
    (None,
     emit (LOG LS_WARNING
             "To receive video, has_video flag must be set to true") s)
  else
    let offer :=
      CreateOffer (session_desc_factory_ s)
        (secure (session_desc_factory_ s)) options (local_description s) in
    (offer, set_local_description offer s).

Definition SetRemoteSessionDescription
    (remote_offer : option SessionDescription) (remote_candidates : Candidates)
    (s : Session) : option SessionDescription * Session :=
  (remote_offer,
   SetRemoteCandidates remote_candidates
     (set_remote_description remote_offer s)).

Definition ProvideAnswer (options : MediaSessionOptions) (s : Session)
  : option SessionDescription * Session :=
  let answer :=
    CreateAnswer (session_desc_factory_ s)
      (secure (session_desc_factory_ s)) (remote_description s) options
      (local_description s) in
  (answer, set_local_description answer s).

(** ** Completion of the negotiation *)

(** Modelled from the spec: [BaseSession::SetState] stores the new state
    and signals it. *)
Definition SetState (st : State) (s : Session) : Session :=
  emit (SignalState st) (set_state st s).

Definition channel (m : MediaType) (s : Session) : option Channel :=
  match m with
  | MEDIA_TYPE_AUDIO => voice_channel_ s
  | MEDIA_TYPE_VIDEO => video_channel_ s
  end.

Definition set_channel (m : MediaType) (c : option Channel) (s : Session)
  : Session :=
  match m with
  | MEDIA_TYPE_AUDIO => set_voice_channel c s
  | MEDIA_TYPE_VIDEO => set_video_channel c s
  end.

(** Modelled from the spec: [Enable] and [Mute] of the channel classes,
    which live in [talk/session/phone]; the channel records the flag.  The
    call goes through the scoped pointer, so it has no result ([None]) when
    the pointer is null. *)
Definition Channel_Enable (m : MediaType) (b : bool) (s : Session)
  : option Session :=
  c ← channel m s;
  Some (emit (Enable m b)
          (set_channel m
             (Some (mkChannel (channel_content c) (rtcp c) b (muted c))) s)).

Definition Channel_Mute (m : MediaType) (b : bool) (s : Session)
  : option Session :=
  c ← channel m s;
  Some (emit (Mute m b)
          (set_channel m
             (Some (mkChannel (channel_content c) (rtcp c) (enabled c) b)) s)).

(** Modelled from the spec: [GetFirstAudioContent] and
    [GetFirstVideoContent] of [talk/session/phone/mediasession]; the first
    content of the description with the given media type, null when the
    description is null or has none. *)
Fixpoint first_content (m : MediaType) (l : list ContentInfo)
  : option ContentInfo :=
  match l with
  | [] => None
  | ci :: rest =>
      if decide (type (description ci) = m) then Some ci
      else first_content m rest
  end.

Definition GetFirstMediaContent (m : MediaType)
    (sdesc : option SessionDescription) : option ContentInfo :=
  d ← sdesc; first_content m (contents d).

Definition GetFirstAudioContent := GetFirstMediaContent MEDIA_TYPE_AUDIO.
Definition GetFirstVideoContent := GetFirstMediaContent MEDIA_TYPE_VIDEO.

(** One of the two mute blocks that close [NegotiationDone]; they differ
    in the media type only.  Without a content of that type in the local
    description the channel is not touched; with one, it is muted when the
    content has no stream and unmuted otherwise. *)
Definition mute_if_present (m : MediaType) (s : Session) : option Session :=
  match GetFirstMediaContent m (local_description s) with
  | Some info =>
      Channel_Mute m (List.length (streams (description info)) =? 0)%nat s
  | None => Some s
  end.

Definition NegotiationDone (s : Session) : option Session :=
  s1 ← (if decide (state s = STATE_INIT) then
          s' ← Channel_Enable MEDIA_TYPE_AUDIO true
                 (SetState STATE_RECEIVEDACCEPT (SetState STATE_SENTINITIATE s));
          Channel_Enable MEDIA_TYPE_VIDEO true s'
        else Some s);
  s2 ← mute_if_present MEDIA_TYPE_AUDIO s1;
  mute_if_present MEDIA_TYPE_VIDEO s2.

(** ** Event sequences *)

(** What reaches the session while candidates are gathered: the transport
    reports a batch of candidates, or the owner registers (or removes) the
    observer. *)
Inductive Event : Type :=
  | EvRegisterObserver (o : option Observer)
  | EvCandidatesReady (transport : Transport) (candidates : Candidates).

Definition step (s : Session) (e : Event) : Session :=
  match e with
  | EvRegisterObserver o => RegisterObserver o s
  | EvCandidatesReady t cands => OnTransportCandidatesReady t cands s
  end.

Definition run (evs : list Event) (s : Session) : Session :=
  foldl step s evs.

(** The candidate lists handed to the observer, oldest first. *)
Definition candidates_ready_of (e : Effect) : option Candidates :=
  match e with
  | OnCandidatesReady _ cands => Some cands
  | _ => None
  end.

Definition notifications (s : Session) : list Candidates :=
  omap candidates_ready_of (trace s).

(** The notification has not been sent, or it has been sent once, with the
    set the session still holds, which has [kAllowedCandidates] entries. *)
Definition notified_at_most_once (s : Session) : Prop :=
  notifications s = []
  ∨ (notifications s = [local_candidates_ s]
     ∧ List.length (local_candidates_ s) = kAllowedCandidates).

(** Number of error signals, state signals and enable calls in a trace. *)
Definition is_SignalError (e : Effect) : bool :=
  match e with SignalError => true | _ => false end.

Definition is_SignalState (e : Effect) : bool :=
  match e with SignalState _ => true | _ => false end.

Definition is_Enable (e : Effect) : bool :=
  match e with Enable _ _ => true | _ => false end.

Definition is_Mute (e : Effect) : bool :=
  match e with Mute _ _ => true | _ => false end.

Definition count (p : Effect → bool) (tr : list Effect) : nat :=
  List.length (List.filter p tr).

(** The calls of the transition block of [NegotiationDone], and the mute
    calls owed for a local description: one for each media type that has a
    content, audio first. *)
Definition transition_calls : list Effect :=
  [SignalState STATE_SENTINITIATE; SignalState STATE_RECEIVEDACCEPT;
   Enable MEDIA_TYPE_AUDIO true; Enable MEDIA_TYPE_VIDEO true].

Definition mute_call (m : MediaType) (ld : option SessionDescription)
  : list Effect :=
  match GetFirstMediaContent m ld with
  | Some info => [Mute m (List.length (streams (description info)) =? 0)%nat]
  | None => []
  end.

Definition mute_calls (ld : option SessionDescription) : list Effect :=
  mute_call MEDIA_TYPE_AUDIO ld ++ mute_call MEDIA_TYPE_VIDEO ld.

(** [NegotiationDone] called [n] times in a row. *)
Fixpoint NegotiationDone_times (n : nat) (s : Session) : option Session :=
  match n with
  | O => Some s
  | S k => s' ← NegotiationDone s; NegotiationDone_times k s'
  end.

(** From the words of the specification, to be compared with
    [SetRemoteCandidates]: the calls expected for one bucket, given the
    proxy found for its media type.  An empty bucket causes none; a
    missing proxy is logged; a proxy that is not negotiated completes its
    negotiation first; then the bucket is handed to the implementation. *)
Definition expected_calls (content : string) (missing : string)
    (bucket : Candidates) (proxy : option TransportProxy) : list Effect :=
  match bucket, proxy with
  | [], _ => []
  | _ :: _, None => [LOG LS_INFO missing]
  | _ :: _, Some p =>
      (if negotiated p then [] else [CompleteNegotiation content])
      ++ [OnRemoteCandidates content bucket]
  end.

(** The channel names a sequence of events offers to the session. *)
Definition offered (e : Event) : list string :=
  match e with
  | EvCandidatesReady _ cands => name <$> cands
  | EvRegisterObserver _ => []
  end.

Definition offered_names (evs : list Event) : list string :=
  concat (offered <$> evs).

(** The destroy calls owed for the handles a session holds, voice first. *)
Definition destroy_calls (s : Session) : list Effect :=
  match voice_channel_ s with
  | Some c => [DestroyVoiceChannel c]
  | None => []
  end ++
  match video_channel_ s with
  | Some c => [DestroyVideoChannel c]
  | None => []
  end.

(** ** Collaborators used in the examples *)

Definition fresh_channel (content : string) (with_rtcp : bool) : Channel :=
  {| channel_content := content; rtcp := with_rtcp;
     enabled := false; muted := false |}.

Definition working_manager : ChannelManager :=
  {| CreateVoiceChannel := λ n r, Some (fresh_channel n r);
     CreateVideoChannel := λ n r _, Some (fresh_channel n r) |}.

Definition manager_without_voice : ChannelManager :=
  {| CreateVoiceChannel := λ _ _, None;
     CreateVideoChannel := λ n r _, Some (fresh_channel n r) |}.

Definition manager_without_video : ChannelManager :=
  {| CreateVoiceChannel := λ n r, Some (fresh_channel n r);
     CreateVideoChannel := λ _ _ _, None |}.

Definition media (m : MediaType) (n : string) (ss : list string) : ContentInfo :=
  {| content_name := n; description := {| type := m; streams := ss |} |}.

(** A factory whose offer has one audio content with one stream and, when
    asked for, one video content without streams. *)
Definition simple_factory : MediaSessionDescriptionFactory :=
  {| secure := SEC_DISABLED;
     CreateOffer := λ _ options _,
       Some {| contents :=
                 media MEDIA_TYPE_AUDIO CN_AUDIO ["mic"]
                 :: (if has_video options
                     then [media MEDIA_TYPE_VIDEO CN_VIDEO []] else []) |};
     CreateAnswer := λ _ remote _ _, remote |}.

Definition idle_thread : Thread := {| now := 0; dmsgq := [] |}.

Definition session0 (cm : ChannelManager) : Session :=
  WebRtcSession 7 cm idle_thread simple_factory.

Definition cand (n : string) (a : string) : Candidate :=
  {| name := n; protocol := "udp"; address := a |}.

Definition any_transport : Transport :=
  {| HasChannels := true; writable := false |}.

Definition four_candidates : Candidates :=
  [cand "rtp" "10.0.0.1:5000"; cand "rtcp" "10.0.0.1:5001";
   cand "video_rtp" "10.0.0.1:5002"; cand "video_rtcp" "10.0.0.1:5003"].

Definition five_candidates : Candidates :=
  four_candidates ++ [cand "data" "10.0.0.1:5004"].

Definition channel_names : list string :=
  ["rtp"; "rtcp"; "video_rtp"; "video_rtcp"].

Definition mixed_candidates : Candidates :=
  [cand "video_rtp" "10.0.0.2:1"; cand "video_rtcp" "10.0.0.2:2";
   cand "rtp" "10.0.0.2:3"; cand "rtcp" "10.0.0.2:4"].

(** A session whose audio proxy exists and is not negotiated, and which
    has no video proxy. *)
Definition audio_only_session : Session :=
  set_transports {[ CN_AUDIO := {| negotiated := false |} ]}
    (session0 working_manager).

(** A session with both channels and the offer of [simple_factory] as
    local description: one audio content with a stream, one video content
    without. *)
Definition initialized_session : Session :=
  (Initialize (session0 working_manager)).2.

Definition offered_session : Session :=
  (ProvideOffer {| has_audio := true; has_video := true |}
     initialized_session).2.

(** A session past the transition whose local description has an audio
    content without streams and no video content. *)
Definition silent_audio_session : Session :=
  set_local_description
    (Some {| contents := [media MEDIA_TYPE_AUDIO CN_AUDIO []] |})
    (set_state STATE_RECEIVEDACCEPT initialized_session).

(** ** The rest of the translation unit *)

(** The destructor calls [Terminate]. *)
Definition WebRtcSession_destructor (s : Session) : Session :=
  Terminate s.

Definition VideoRenderer : Type := nat.

(** [SetLocalRenderer]: the call on the video channel is commented out in
    the source, the method only asserts the thread. *)
Definition SetLocalRenderer (n : string) (renderer : VideoRenderer)
    (s : Session) : Session := s.

(** [SetRemoteRenderer]: calls [SetRenderer] through the video channel
    pointer, so it has no result when the pointer is null; the renderer is
    kept by the channel, outside the members of the session. *)
Definition SetRemoteRenderer (n : string) (renderer : VideoRenderer)
    (s : Session) : option Session :=
  _ ← video_channel_ s; Some s.

(** Everything that can happen to a session: the public methods, the
    callbacks of the transport, the signalling thread running for a while,
    the registration of the observer, and the transport layer adding or
    removing proxies (as happens when a channel is created). *)
Inductive Op : Type :=
  | OpInitialize
  | OpTerminate
  | OpProvideOffer (options : MediaSessionOptions)
  | OpSetRemoteSessionDescription (remote_offer : option SessionDescription)
      (remote_candidates : Candidates)
  | OpProvideAnswer (options : MediaSessionOptions)
  | OpNegotiationDone
  | OpSetRemoteCandidates (candidates : Candidates)
  | OpSetLocalRenderer (n : string) (renderer : VideoRenderer)
  | OpSetRemoteRenderer (n : string) (renderer : VideoRenderer)
  | OpTransportRequestSignaling (transport : Transport)
  | OpTransportConnecting (transport : Transport)
  | OpTransportWritable (transport : Transport)
  | OpTransportCandidatesReady (transport : Transport) (candidates : Candidates)
  | OpTransportChannelGone (transport : Transport) (n : string)
  | OpProcessMessages (cms : Z)
  | OpRegisterObserver (o : option Observer)
  | OpTransportsChanged (proxies : gmap string TransportProxy).

Definition exec (op : Op) (s : Session) : option Session :=
  match op with
  | OpInitialize => Some (Initialize s).2
  | OpTerminate => Some (Terminate s)
  | OpProvideOffer options => Some (ProvideOffer options s).2
  | OpSetRemoteSessionDescription remote cands =>
      Some (SetRemoteSessionDescription remote cands s).2
  | OpProvideAnswer options => Some (ProvideAnswer options s).2
  | OpNegotiationDone => NegotiationDone s
  | OpSetRemoteCandidates cands => Some (SetRemoteCandidates cands s)
  | OpSetLocalRenderer n r => Some (SetLocalRenderer n r s)
  | OpSetRemoteRenderer n r => SetRemoteRenderer n r s
  | OpTransportRequestSignaling t => Some (OnTransportRequestSignaling t s)
  | OpTransportConnecting t => Some (OnTransportConnecting t s)
  | OpTransportWritable t => Some (OnTransportWritable t s)
  | OpTransportCandidatesReady t cands =>
      Some (OnTransportCandidatesReady t cands s)
  | OpTransportChannelGone t n => Some (OnTransportChannelGone t n s)
  | OpProcessMessages cms => Some (ProcessMessages cms s)
  | OpRegisterObserver o => Some (RegisterObserver o s)
  | OpTransportsChanged proxies => Some (set_transports proxies s)
  end.

(** A sequence of operations; it has no result as soon as one of them
    goes through a null channel pointer. *)
Fixpoint exec_all (ops : list Op) (s : Session) : option Session :=
  match ops with
  | [] => Some s
  | op :: rest => s' ← exec op s; exec_all rest s'
  end.

(** The calls on collaborators that belong to each operation. *)
Definition may_emit (op : Op) (e : Effect) : Prop :=
  match op, e with
  | OpInitialize, LOG LS_ERROR _ => True
  | OpInitialize, SpeculativelyConnectAllTransportChannels => True
  | OpTerminate, DestroyVoiceChannel _ => True
  | OpTerminate, DestroyVideoChannel _ => True
  | OpProvideOffer _, LOG LS_WARNING _ => True
  | OpSetRemoteSessionDescription _ _, LOG LS_INFO _ => True
  | OpSetRemoteSessionDescription _ _, CompleteNegotiation _ => True
  | OpSetRemoteSessionDescription _ _, OnRemoteCandidates _ _ => True
  | OpSetRemoteCandidates _, LOG LS_INFO _ => True
  | OpSetRemoteCandidates _, CompleteNegotiation _ => True
  | OpSetRemoteCandidates _, OnRemoteCandidates _ _ => True
  | OpNegotiationDone, SignalState _ => True
  | OpNegotiationDone, Enable _ _ => True
  | OpNegotiationDone, Mute _ _ => True
  | OpTransportRequestSignaling _, OnSignalingReady => True
  | OpTransportCandidatesReady _ _, OnCandidatesReady _ _ => True
  | OpProcessMessages _, LOG LS_ERROR _ => True
  | OpProcessMessages _, SignalError => True
  | _, _ => False
  end.

(** The signalling thread running for several stretches of time. *)
Definition run_thread (stretches : list Z) (s : Session) : Session :=
  foldl (λ s cms, ProcessMessages cms s) s stretches.

Definition total_time (stretches : list Z) : Z :=
  foldr Z.add 0%Z stretches.

(** Remote candidates arriving in several lists. *)
Definition set_remote_all (lists : list Candidates) (s : Session) : Session :=
  foldl (λ s cands, SetRemoteCandidates cands s) s lists.

Definition is_CompleteNegotiation (content : string) (e : Effect) : bool :=
  match e with
  | CompleteNegotiation c => String.eqb c content
  | _ => false
  end.

(** The transport events of a sequence that start the watchdog. *)
Definition starts_watchdog (op : Op) : bool :=
  match op with
  | OpTransportConnecting t | OpTransportWritable t =>
      HasChannels t && negb (writable t)
  | _ => false
  end.

(** Whether one of the steps of [NegotiationDone] goes through the channel
    of a media type: the enabling in [STATE_INIT], the muting when the
    local description has a content of that type. *)
Definition uses_channel (m : MediaType) (s : Session) : Prop :=
  state s = STATE_INIT
  ∨ is_Some (GetFirstMediaContent m (local_description s)).


(** Whether the proxy of a content name still has its negotiation to
    complete: it exists and is not negotiated. *)
Definition negotiation_owed (content : string) (s : Session) : nat :=
  match GetTransportProxy content s with
  | Some proxy => if negotiated proxy then 0 else 1
  | None => 0
  end.

(** The two resting states of the session, with the calls that tell them
    apart: before the transition nothing has been signalled or enabled,
    after it both states have been signalled and both channels enabled,
    once. *)
Definition settled (s : Session) : Prop :=
  (state s = STATE_INIT
   ∧ List.filter is_SignalState (trace s) = []
   ∧ List.filter is_Enable (trace s) = [])
  ∨ (state s = STATE_RECEIVEDACCEPT
     ∧ List.filter is_SignalState (trace s)
       = [SignalState STATE_SENTINITIATE; SignalState STATE_RECEIVEDACCEPT]
     ∧ List.filter is_Enable (trace s)
       = [Enable MEDIA_TYPE_AUDIO true; Enable MEDIA_TYPE_VIDEO true]).

(** The observer is registered and has been notified exactly when the
    set holds [kAllowedCandidates] entries, with that set. *)
Definition observer_up_to_date (s : Session) : Prop :=
  is_Some (observer_ s)
  ∧ ((List.length (local_candidates_ s) ≠ kAllowedCandidates
      ∧ notifications s = [])
     ∨ (List.length (local_candidates_ s) = kAllowedCandidates
        ∧ notifications s = [local_candidates_ s])).

(** * Properties *)

(** ** Channel life cycle *)

Section ChannelLifecycle.

Implicit Types (s : Session) (c v : Channel).

Lemma Terminate_releases s :
  voice_channel_ (Terminate s) = None ∧ video_channel_ (Terminate s) = None.
Proof.
  unfold Terminate.
  destruct (voice_channel_ s) eqn:Hvoice; simpl;
    destruct (video_channel_ s) eqn:Hvideo; simpl; auto.
Qed.

Lemma Terminate_without_channels s :
  voice_channel_ s = None → video_channel_ s = None → Terminate s = s.
Proof. intros Hvoice Hvideo. unfold Terminate. by rewrite Hvoice, Hvideo. Qed.

(** C8. [Terminate] hands to the channel manager exactly the handles that
    are present, voice before video, and leaves both pointers null; a
    second call finds nothing to destroy, so calling it twice gives the
    same session (trace included) as calling it once. *)
Theorem Terminate_idempotent s :
  trace (Terminate s) = trace s ++ destroy_calls s
  ∧ voice_channel_ (Terminate s) = None
  ∧ video_channel_ (Terminate s) = None
  ∧ destroy_calls (Terminate s) = []
  ∧ Terminate (Terminate s) = Terminate s.
Proof.
  destruct (Terminate_releases s) as [Hvoice Hvideo].
  split_and!; try done.
  - unfold Terminate, destroy_calls.
    destruct (voice_channel_ s) eqn:E1; simpl;
      destruct (video_channel_ s) eqn:E2; simpl;
      rewrite ?E1, ?E2, ?app_nil_r, <- ?app_assoc; done.
  - unfold destroy_calls. by rewrite Hvoice, Hvideo.
  - by apply Terminate_without_channels.
Qed.

Lemma Initialize_as_CreateChannels s :
  (Initialize s).1 = (CreateChannels s).1
  ∧ voice_channel_ (Initialize s).2 = voice_channel_ (CreateChannels s).2
  ∧ video_channel_ (Initialize s).2 = video_channel_ (CreateChannels s).2
  ∧ trace (Initialize s).2 = trace (CreateChannels s).2.
Proof.
  unfold Initialize, CreateChannels; simpl.
  destruct (CreateVoiceChannel _ _ _) as [v|]; simpl; [|done].
  destruct (CreateVideoChannel _ _ _ _); done.
Qed.

(** C7. When the voice channel cannot be created, [CreateChannels] fails
    at once: no voice handle is held and the video pointer is not touched.
    When the voice channel is created and the video channel is not, it
    fails as well, the voice handle stays in place and nothing is handed
    back to the channel manager (the only call recorded is the log line).
    [Initialize] returns the same result with the same handles. *)
Theorem CreateChannels_failure s :
  (CreateVoiceChannel (channel_manager_ s) CN_AUDIO true = None →
     (CreateChannels s).1 = false ∧ (Initialize s).1 = false
     ∧ voice_channel_ (CreateChannels s).2 = None
     ∧ voice_channel_ (Initialize s).2 = None
     ∧ video_channel_ (CreateChannels s).2 = video_channel_ s
     ∧ trace (CreateChannels s).2
       = trace s ++ [LOG LS_ERROR "Failed to create voice channel"])
  ∧ (∀ v,
       CreateVoiceChannel (channel_manager_ s) CN_AUDIO true = Some v →
       CreateVideoChannel (channel_manager_ s) CN_VIDEO true v = None →
       (CreateChannels s).1 = false ∧ (Initialize s).1 = false
       ∧ voice_channel_ (CreateChannels s).2 = Some v
       ∧ voice_channel_ (Initialize s).2 = Some v
       ∧ video_channel_ (CreateChannels s).2 = None
       ∧ trace (CreateChannels s).2
         = trace s ++ [LOG LS_ERROR "Failed to create video channel"]).
Proof.
  destruct (Initialize_as_CreateChannels s) as (Hr & Hvoice & _ & _).
  rewrite Hr, Hvoice. clear Hr Hvoice.
  split.
  - intros Hnone. unfold CreateChannels; simpl. by rewrite Hnone.
  - intros v Hsome Hnone. unfold CreateChannels; simpl.
    rewrite Hsome; simpl. by rewrite Hnone.
Qed.

Lemma CreateChannels_failure_witness :
  ((CreateChannels (session0 manager_without_voice)).1 = false
   ∧ voice_channel_ (CreateChannels (session0 manager_without_voice)).2 = None)
  ∧ ((Initialize (session0 manager_without_video)).1 = false
     ∧ voice_channel_ (Initialize (session0 manager_without_video)).2
       = Some (fresh_channel CN_AUDIO true)).
Proof.
  split.
  - destruct (proj1 (CreateChannels_failure (session0 manager_without_voice))
                eq_refl) as (H1 & _ & H3 & _).
    exact (conj H1 H3).
  - destruct (proj2 (CreateChannels_failure (session0 manager_without_video))
                (fresh_channel CN_AUDIO true) eq_refl eq_refl)
      as (_ & H2 & _ & H4 & _).
    exact (conj H2 H4).
Defined.

End ChannelLifecycle.

(** ** Local candidates *)

Section LocalCandidates.

Implicit Types (s : Session) (c : Candidate) (l cands : Candidates)
  (n : string) (t : Transport) (evs : list Event).

Lemma CheckCandidate_scan_spec l n :
  CheckCandidate_scan l n = true ↔ n ∈ name <$> l.
Proof.
  induction l as [|c l IH]; simpl.
  - split; [done | by intros ?%elem_of_nil].
  - rewrite elem_of_cons. destruct (String.eqb_spec (name c) n) as [->|Hne].
    + tauto.
    + rewrite IH. split; [tauto | by intros [?|?]].
Qed.

Lemma CheckCandidate_false s n :
  CheckCandidate n s = false ↔ n ∉ name <$> local_candidates_ s.
Proof.
  unfold CheckCandidate. rewrite <- CheckCandidate_scan_spec.
  by destruct (CheckCandidate_scan _ _).
Qed.

(** What one pass of the insertion loop may change. *)
Lemma insert_candidate_frame s c :
  trace (insert_candidate s c) = trace s
  ∧ observer_ (insert_candidate s c) = observer_ s.
Proof. unfold insert_candidate. by destruct (CheckCandidate _ _). Qed.

Lemma insert_candidate_local s c :
  local_candidates_ (insert_candidate s c)
  = if CheckCandidate (name c) s then local_candidates_ s
    else local_candidates_ s ++ [c].
Proof. unfold insert_candidate. by destruct (CheckCandidate _ _). Qed.

Lemma insert_candidate_NoDup s c :
  NoDup (name <$> local_candidates_ s) →
  NoDup (name <$> local_candidates_ (insert_candidate s c)).
Proof.
  intros Hnd. rewrite insert_candidate_local.
  destruct (CheckCandidate (name c) s) eqn:Hchk; [done|].
  apply CheckCandidate_false in Hchk.
  rewrite fmap_app. apply NoDup_app. split_and!; [done | | apply NoDup_singleton].
  intros x Hx ->%list_elem_of_singleton. done.
Qed.

Lemma insert_candidate_names s c (chans : list string) :
  name c ∈ chans →
  name <$> local_candidates_ s ⊆ chans →
  name <$> local_candidates_ (insert_candidate s c) ⊆ chans.
Proof.
  intros Hc Hsub. rewrite insert_candidate_local.
  destruct (CheckCandidate _ _); [done|].
  rewrite fmap_app. intros x [?| ->%list_elem_of_singleton]%elem_of_app; auto.
Qed.

Lemma InsertTransportCandidates_frame cands s :
  trace (InsertTransportCandidates cands s) = trace s
  ∧ observer_ (InsertTransportCandidates cands s) = observer_ s.
Proof.
  unfold InsertTransportCandidates. revert s.
  induction cands as [|c cands IH]; intros s; simpl; [done|].
  destruct (IH (insert_candidate s c)) as [-> ->].
  apply insert_candidate_frame.
Qed.

Lemma InsertTransportCandidates_NoDup cands s :
  NoDup (name <$> local_candidates_ s) →
  NoDup (name <$> local_candidates_ (InsertTransportCandidates cands s)).
Proof.
  unfold InsertTransportCandidates. revert s.
  induction cands as [|c cands IH]; intros s Hnd; simpl; [done|].
  by apply IH, insert_candidate_NoDup.
Qed.

Lemma InsertTransportCandidates_names cands s (chans : list string) :
  name <$> cands ⊆ chans →
  name <$> local_candidates_ s ⊆ chans →
  name <$> local_candidates_ (InsertTransportCandidates cands s) ⊆ chans.
Proof.
  unfold InsertTransportCandidates. revert s.
  induction cands as [|c cands IH]; intros s Hin Hsub; simpl; [done|].
  rewrite fmap_cons in Hin. apply IH.
  - intros n Hn. apply Hin. by right.
  - apply insert_candidate_names; [|done]. apply Hin. by left.
Qed.

(** The event handler, by cases. *)
Lemma OnTransportCandidatesReady_full t cands s :
  List.length (local_candidates_ s) = kAllowedCandidates →
  OnTransportCandidatesReady t cands s = s.
Proof.
  intros Hlen. unfold OnTransportCandidatesReady.
  by rewrite Hlen, Nat.eqb_refl.
Qed.

Lemma OnTransportCandidatesReady_local t cands s :
  local_candidates_ (OnTransportCandidatesReady t cands s)
  = if decide (List.length (local_candidates_ s) = kAllowedCandidates)
    then local_candidates_ s
    else local_candidates_ (InsertTransportCandidates cands s).
Proof.
  unfold OnTransportCandidatesReady.
  case_decide as Hlen; [by rewrite Hlen, Nat.eqb_refl|].
  apply Nat.eqb_neq in Hlen. rewrite Hlen. clear Hlen.
  destruct (_ =? _)%nat; [|done].
  by destruct (observer_ _).
Qed.

Lemma OnTransportCandidatesReady_observer t cands s :
  observer_ (OnTransportCandidatesReady t cands s) = observer_ s.
Proof.
  unfold OnTransportCandidatesReady.
  destruct (_ =? _)%nat; [done|].
  destruct (InsertTransportCandidates_frame cands s) as [_ Hobs].
  destruct (_ =? _)%nat; [|done].
  destruct (observer_ (InsertTransportCandidates cands s)) eqn:Ho;
    simpl; congruence.
Qed.

(** The handler notifies exactly when the set was not full before, holds
    [kAllowedCandidates] entries after the insertion and an observer is
    registered; it then passes the set it has just completed. *)
Lemma OnTransportCandidatesReady_notifications t cands s :
  notifications (OnTransportCandidatesReady t cands s)
  = notifications s ++
    (if decide (List.length (local_candidates_ s) ≠ kAllowedCandidates
                ∧ List.length
                    (local_candidates_ (InsertTransportCandidates cands s))
                  = kAllowedCandidates
                ∧ is_Some (observer_ s))
     then [local_candidates_ (InsertTransportCandidates cands s)]
     else []).
Proof.
  unfold OnTransportCandidatesReady, notifications.
  destruct (InsertTransportCandidates_frame cands s) as [Htr Hobs].
  destruct (Nat.eqb_spec (List.length (local_candidates_ s))
              kAllowedCandidates) as [Hfull|Hfull].
  { rewrite decide_False by tauto. by rewrite app_nil_r. }
  destruct (Nat.eqb_spec
              (List.length
                 (local_candidates_ (InsertTransportCandidates cands s)))
              kAllowedCandidates) as [Hnow|Hnow].
  - rewrite Hobs. destruct (observer_ s) as [o|] eqn:Ho.
    + rewrite decide_True by (split_and!; eauto).
      simpl. by rewrite omap_app, Htr.
    + rewrite decide_False by (intros (_ & _ & []); done).
      by rewrite Htr, app_nil_r.
  - rewrite decide_False by tauto. by rewrite Htr, app_nil_r.
Qed.

Lemma step_NoDup s (e : Event) :
  NoDup (name <$> local_candidates_ s) →
  NoDup (name <$> local_candidates_ (step s e)).
Proof.
  intros Hnd. destruct e as [o|t cands]; simpl; [done|].
  rewrite OnTransportCandidatesReady_local.
  case_decide; [done|]. by apply InsertTransportCandidates_NoDup.
Qed.

Lemma run_NoDup evs s :
  NoDup (name <$> local_candidates_ s) →
  NoDup (name <$> local_candidates_ (run evs s)).
Proof.
  unfold run. revert s.
  induction evs as [|e evs IH]; intros s Hnd; simpl; [done|].
  by apply IH, step_NoDup.
Qed.

Lemma run_names evs s (chans : list string) :
  offered_names evs ⊆ chans →
  name <$> local_candidates_ s ⊆ chans →
  name <$> local_candidates_ (run evs s) ⊆ chans.
Proof.
  unfold run, offered_names. revert s.
  induction evs as [|e evs IH]; intros s Hin Hsub; simpl; [done|].
  rewrite fmap_cons in Hin. simpl in Hin. apply IH.
  - intros n Hn. apply Hin, elem_of_app. by right.
  - destruct e as [o|t cands]; simpl; [done|].
    rewrite OnTransportCandidatesReady_local.
    case_decide; [done|].
    apply InsertTransportCandidates_names; [|done].
    intros n Hn. apply Hin, elem_of_app. by left.
Qed.

(** Once the set holds [kAllowedCandidates] entries, no event of the
    sequence changes anything but the observer pointer. *)
Lemma run_full evs s :
  List.length (local_candidates_ s) = kAllowedCandidates →
  local_candidates_ (run evs s) = local_candidates_ s
  ∧ trace (run evs s) = trace s.
Proof.
  unfold run. revert s.
  induction evs as [|e evs IH]; intros s Hlen; simpl; [done|].
  destruct e as [o|t cands]; simpl.
  - destruct (IH (RegisterObserver o s) Hlen) as [-> ->]. done.
  - rewrite OnTransportCandidatesReady_full by done. by apply IH.
Qed.

Lemma step_notified_at_most_once s (e : Event) :
  notified_at_most_once s → notified_at_most_once (step s e).
Proof.
  unfold notified_at_most_once.
  intros Hinv. destruct e as [o|t cands]; simpl; [done|].
  rewrite OnTransportCandidatesReady_notifications,
    OnTransportCandidatesReady_local.
  destruct (decide (List.length (local_candidates_ s) = kAllowedCandidates))
    as [Hfull|Hfull].
  - rewrite decide_False by tauto. by rewrite app_nil_r.
  - destruct Hinv as [-> | [_ ?]]; [|done]. simpl.
    case_decide as Hfire; [|by left].
    right. by destruct Hfire as (_ & ? & _).
Qed.

Lemma run_notified_at_most_once evs s :
  notified_at_most_once s → notified_at_most_once (run evs s).
Proof.
  unfold run. revert s.
  induction evs as [|e evs IH]; intros s Hinv; simpl; [done|].
  by apply IH, step_notified_at_most_once.
Qed.

(** C2, the claim as stated fails: one batch with five channel names
    leaves five entries in the set, and since the size is then never
    equal to [kAllowedCandidates], a later batch is inserted as well. *)
Lemma local_candidates_exceed_counterexample :
  List.length
    (local_candidates_
       (run [EvCandidatesReady any_transport five_candidates]
          (session0 working_manager))) = 5
  ∧ List.length
      (local_candidates_
         (run [EvCandidatesReady any_transport five_candidates;
               EvCandidatesReady any_transport [cand "extra" "10.0.0.1:6"]]
            (session0 working_manager))) = 6.
Proof. split; reflexivity. Qed.

(** C2, amended.  After any sequence of events on a new session, no two
    entries of the local candidate set have the same channel name; when
    the set holds exactly [kAllowedCandidates] entries no later event
    changes it; and the set never holds more than [kAllowedCandidates]
    entries when the candidates delivered carry at most that many
    different channel names. *)
Theorem local_candidates_invariant self cm th f evs :
  NoDup (name <$> local_candidates_ (run evs (WebRtcSession self cm th f)))
  ∧ (List.length (local_candidates_ (run evs (WebRtcSession self cm th f)))
     = kAllowedCandidates →
     ∀ evs',
       local_candidates_ (run evs' (run evs (WebRtcSession self cm th f)))
       = local_candidates_ (run evs (WebRtcSession self cm th f)))
  ∧ (∀ chans : list string,
       offered_names evs ⊆ chans →
       (List.length chans ≤ kAllowedCandidates)%nat →
       (List.length (local_candidates_ (run evs (WebRtcSession self cm th f)))
        ≤ kAllowedCandidates)%nat).
Proof.
  assert (NoDup (name <$> local_candidates_
                   (run evs (WebRtcSession self cm th f)))) as Hnd.
  { apply run_NoDup. simpl. constructor. }
  split_and!; [done | |].
  - intros Hfull evs'. by apply run_full.
  - intros chans Hnames Hchans.
    rewrite <- (length_fmap name). etrans; [|exact Hchans].
    apply submseteq_length, NoDup_submseteq; [done|].
    apply run_names; [done|]. simpl. by intros ? ?%elem_of_nil.
Qed.

Lemma local_candidates_invariant_witness :
  local_candidates_
    (run [EvCandidatesReady any_transport five_candidates]
       (run [EvCandidatesReady any_transport (take 3 four_candidates);
             EvCandidatesReady any_transport four_candidates]
          (session0 working_manager)))
  = four_candidates
  ∧ (List.length
       (local_candidates_
          (run [EvCandidatesReady any_transport (take 3 four_candidates);
                EvCandidatesReady any_transport four_candidates]
             (session0 working_manager))) ≤ kAllowedCandidates)%nat.
Proof.
  destruct (local_candidates_invariant 7 working_manager idle_thread
              simple_factory
              [EvCandidatesReady any_transport (take 3 four_candidates);
               EvCandidatesReady any_transport four_candidates])
    as (_ & Hfull & Hbound).
  split.
  - exact (Hfull eq_refl [EvCandidatesReady any_transport five_candidates]).
  - apply (Hbound channel_names).
    + apply (bool_decide_unpack _). vm_compute. exact I.
    + vm_compute. repeat constructor.
Defined.

(** C3, the claim as stated fails: with an observer registered, a batch
    with five channel names takes the set from empty to five entries;
    the fourth candidate has been accepted, and the observer is not
    notified, in this event or in any later one. *)
Lemma notification_missed_counterexample :
  observer_
    (run [EvRegisterObserver (Some 1);
          EvCandidatesReady any_transport five_candidates]
       (session0 working_manager)) = Some 1
  ∧ local_candidates_
      (run [EvRegisterObserver (Some 1);
            EvCandidatesReady any_transport five_candidates]
         (session0 working_manager)) = five_candidates
  ∧ notifications
      (run [EvRegisterObserver (Some 1);
            EvCandidatesReady any_transport five_candidates;
            EvCandidatesReady any_transport four_candidates]
         (session0 working_manager)) = [].
Proof. split_and!; reflexivity. Qed.

(** C3, amended.  Over any sequence of events on a new session the
    observer is notified at most once, and then with the set of exactly
    [kAllowedCandidates] candidates that the session holds from then on.
    A candidate-ready event notifies exactly when the set did not hold
    [kAllowedCandidates] entries before it, holds that many after the
    insertion, and an observer is registered. *)
Theorem notification_at_most_once self cm th f evs :
  (notifications (run evs (WebRtcSession self cm th f)) = []
   ∨ (notifications (run evs (WebRtcSession self cm th f))
      = [local_candidates_ (run evs (WebRtcSession self cm th f))]
      ∧ List.length (local_candidates_ (run evs (WebRtcSession self cm th f)))
        = kAllowedCandidates))
  ∧ (∀ s t cands,
       notifications (OnTransportCandidatesReady t cands s)
       = notifications s ++
         (if decide
               (List.length (local_candidates_ s) ≠ kAllowedCandidates
                ∧ List.length
                    (local_candidates_ (InsertTransportCandidates cands s))
                  = kAllowedCandidates
                ∧ is_Some (observer_ s))
          then [local_candidates_ (InsertTransportCandidates cands s)]
          else [])).
Proof.
  split.
  - apply (run_notified_at_most_once evs). by left.
  - intros s t cands. apply OnTransportCandidatesReady_notifications.
Qed.

(** The usual course of events: four candidates, one notification. *)
Example notification_sent :
  notifications
    (run [EvRegisterObserver (Some 1);
          EvCandidatesReady any_transport (take 2 four_candidates);
          EvCandidatesReady any_transport four_candidates;
          EvCandidatesReady any_transport five_candidates]
       (session0 working_manager)) = [four_candidates].
Proof. reflexivity. Qed.

(** C9. When no observer is registered in the event that brings the set
    to [kAllowedCandidates] entries, that event notifies nobody, and no
    later sequence of events does, registrations of an observer
    included: every later candidate-ready event returns at the capacity
    test. *)
Theorem notification_lost s t cands evs :
  observer_ s = None →
  List.length (local_candidates_ (OnTransportCandidatesReady t cands s))
  = kAllowedCandidates →
  notifications (run evs (OnTransportCandidatesReady t cands s))
  = notifications s
  ∧ trace (run evs (OnTransportCandidatesReady t cands s)) = trace s
  ∧ local_candidates_ (run evs (OnTransportCandidatesReady t cands s))
    = local_candidates_ (OnTransportCandidatesReady t cands s)
  ∧ (∀ t' cands',
       OnTransportCandidatesReady t' cands'
         (run evs (OnTransportCandidatesReady t cands s))
       = run evs (OnTransportCandidatesReady t cands s)).
Proof.
  intros Hobs Hlen.
  destruct (run_full evs _ Hlen) as [Hlocal Htrace].
  assert (trace (OnTransportCandidatesReady t cands s) = trace s) as Hquiet.
  { unfold OnTransportCandidatesReady.
    destruct (InsertTransportCandidates_frame cands s) as [Htr Ho].
    destruct (_ =? _)%nat; [done|].
    destruct (_ =? _)%nat; [|done].
    by rewrite Ho, Hobs. }
  split_and!.
  - unfold notifications. by rewrite Htrace, Hquiet.
  - by rewrite Htrace.
  - done.
  - intros t' cands'. apply OnTransportCandidatesReady_full.
    by rewrite Hlocal.
Qed.

Lemma notification_lost_witness :
  notifications
    (run [EvRegisterObserver (Some 1);
          EvCandidatesReady any_transport five_candidates]
       (OnTransportCandidatesReady any_transport four_candidates
          (session0 working_manager)))
  = notifications (session0 working_manager).
Proof.
  refine (proj1 (notification_lost (session0 working_manager) any_transport
            four_candidates
            [EvRegisterObserver (Some 1);
             EvCandidatesReady any_transport five_candidates] _ _));
    reflexivity.
Defined.

End LocalCandidates.

(** ** Offer *)

Section Offer.

Implicit Types (s : Session) (options : MediaSessionOptions).

(** C4. Without the video flag [ProvideOffer] returns null, logs the
    warning and leaves the local description as it was.  With the flag
    it returns the offer the factory builds from the options and the
    current local description, and that offer is the local description
    afterwards. *)
Theorem ProvideOffer_spec options s :
  (has_video options = false →
     (ProvideOffer options s).1 = None
     ∧ local_description (ProvideOffer options s).2 = local_description s
     ∧ trace (ProvideOffer options s).2
       = trace s ++
         [LOG LS_WARNING
            "To receive video, has_video flag must be set to true"])
  ∧ (has_video options = true →
       (ProvideOffer options s).1
       = CreateOffer (session_desc_factory_ s)
           (secure (session_desc_factory_ s)) options (local_description s)
       ∧ local_description (ProvideOffer options s).2
         = (ProvideOffer options s).1
       ∧ trace (ProvideOffer options s).2 = trace s).
Proof.
  unfold ProvideOffer. split; intros ->; simpl; done.
Qed.

Lemma ProvideOffer_spec_witness :
  ((ProvideOffer {| has_audio := true; has_video := false |}
      (session0 working_manager)).1 = None
   ∧ local_description
       (ProvideOffer {| has_audio := true; has_video := false |}
          (session0 working_manager)).2 = None)
  ∧ local_description
      (ProvideOffer {| has_audio := true; has_video := true |}
         (session0 working_manager)).2
    = Some {| contents := [media MEDIA_TYPE_AUDIO CN_AUDIO ["mic"];
                           media MEDIA_TYPE_VIDEO CN_VIDEO []] |}.
Proof.
  split.
  - destruct (proj1 (ProvideOffer_spec
                       {| has_audio := true; has_video := false |}
                       (session0 working_manager)) eq_refl) as (H1 & H2 & _).
    exact (conj H1 H2).
  - destruct (proj2 (ProvideOffer_spec
                       {| has_audio := true; has_video := true |}
                       (session0 working_manager)) eq_refl) as (H1 & H2 & _).
    exact (eq_trans H2 H1).
Defined.

End Offer.

(** ** Connection watchdog *)

Section Watchdog.

Implicit Types (s : Session) (t : Transport) (h : Handler)
  (m : DelayedMessage) (q : list DelayedMessage).

Lemma Clear_no_watchdog h q :
  filter (is_watchdog h)
    (filter (λ m, ¬ (phandler m = h ∧ message_id m = MSG_CANDIDATE_TIMEOUT)) q)
  = [].
Proof.
  unfold is_watchdog.
  induction q as [|m q IH]; [done|].
  rewrite filter_cons. case_decide as Hm; [|done].
  rewrite filter_cons, decide_False; done.
Qed.

Lemma Clear_keeps_others h q :
  filter (λ m, ¬ is_watchdog h m)
    (filter (λ m, ¬ (phandler m = h ∧ message_id m = MSG_CANDIDATE_TIMEOUT)) q)
  = filter (λ m, ¬ is_watchdog h m) q.
Proof.
  unfold is_watchdog.
  induction q as [|m q IH]; [done|].
  rewrite (filter_cons _ m q).
  destruct (decide (¬ (phandler m = h ∧ message_id m = MSG_CANDIDATE_TIMEOUT)))
    as [Hm|Hm].
  - rewrite filter_cons, decide_True by done. by rewrite IH.
  - done.
Qed.

Lemma OnTransportWritable_frame t s :
  this (OnTransportWritable t s) = this s
  ∧ trace (OnTransportWritable t s) = trace s
  ∧ now (signaling_thread (OnTransportWritable t s))
    = now (signaling_thread s).
Proof.
  unfold OnTransportWritable.
  by destruct (HasChannels t && negb (writable t)).
Qed.

Lemma OnTransportWritable_pending t s :
  pending_watchdogs (OnTransportWritable t s)
  = if HasChannels t && negb (writable t)
    then [{| phandler := this s; message_id := MSG_CANDIDATE_TIMEOUT;
             msTrigger := now (signaling_thread s) + kCallSetupTimeout |}]
    else [].
Proof.
  unfold pending_watchdogs, OnTransportWritable.
  destruct (HasChannels t && negb (writable t)); simpl.
  - rewrite filter_app, Clear_no_watchdog. simpl.
    rewrite filter_cons, decide_True by done. done.
  - apply Clear_no_watchdog.
Qed.

Lemma OnTransportWritable_others t s :
  other_events (OnTransportWritable t s) = other_events s.
Proof.
  unfold other_events, OnTransportWritable.
  destruct (HasChannels t && negb (writable t)); simpl.
  - rewrite filter_app, Clear_keeps_others. simpl.
    rewrite filter_cons, decide_False; [by rewrite app_nil_r|].
    intros Hn. by apply Hn.
  - apply Clear_keeps_others.
Qed.

(** Delivery of the due events: only watchdog events of this session
    leave a mark. *)
Lemma deliver_frame s m :
  this (deliver s m) = this s
  ∧ signaling_thread (deliver s m) = signaling_thread s
  ∧ trace (deliver s m)
    = trace s ++ (if decide (is_watchdog (this s) m)
                  then watchdog_fired else []).
Proof.
  unfold deliver, OnMessage, is_watchdog.
  destruct (decide (phandler m = this s)) as [Hh|Hh].
  - destruct (Z.eqb_spec (message_id m) MSG_CANDIDATE_TIMEOUT) as [Hid|Hid].
    + rewrite decide_True by done. simpl. by rewrite <- app_assoc.
    + rewrite decide_False by tauto. by rewrite app_nil_r.
  - rewrite decide_False by tauto. by rewrite app_nil_r.
Qed.

Lemma foldl_deliver_frame q s :
  this (foldl deliver s q) = this s
  ∧ signaling_thread (foldl deliver s q) = signaling_thread s
  ∧ trace (foldl deliver s q)
    = trace s ++ (filter (is_watchdog (this s)) q ≫= λ _, watchdog_fired).
Proof.
  revert s. induction q as [|m q IH]; intros s; simpl.
  - by rewrite app_nil_r.
  - destruct (deliver_frame s m) as (Hthis & Hthread & Htrace).
    destruct (IH (deliver s m)) as (-> & -> & ->).
    rewrite Hthis, Hthread, Htrace, filter_cons.
    split_and!; [done..|].
    case_decide; simpl; by rewrite <- ?app_assoc, ?app_nil_r.
Qed.

Lemma filter_filter_swap (P Q : DelayedMessage → Prop)
    `{∀ m, Decision (P m), ∀ m, Decision (Q m)} q :
  filter P (filter Q q) = filter Q (filter P q).
Proof.
  induction q as [|m q IH]; [done|].
  rewrite !filter_cons.
  destruct (decide (Q m)), (decide (P m));
    rewrite ?filter_cons, ?decide_True, ?decide_False by done; by rewrite ?IH.
Qed.

Lemma ProcessMessages_spec cms s :
  this (ProcessMessages cms s) = this s
  ∧ now (signaling_thread (ProcessMessages cms s))
    = (now (signaling_thread s) + cms)%Z
  ∧ pending_watchdogs (ProcessMessages cms s)
    = filter (λ m, ¬ (msTrigger m ≤ now (signaling_thread s) + cms)%Z)
        (pending_watchdogs s)
  ∧ trace (ProcessMessages cms s)
    = trace s ++
      (filter (λ m, (msTrigger m ≤ now (signaling_thread s) + cms)%Z)
         (pending_watchdogs s) ≫= λ _, watchdog_fired).
Proof.
  unfold ProcessMessages, pending_watchdogs.
  match goal with |- context [foldl deliver ?s0 ?q] =>
    destruct (foldl_deliver_frame q s0) as (-> & -> & ->) end.
  simpl. split_and!; [done | done | |].
  - apply filter_filter_swap.
  - f_equal. f_equal. apply filter_filter_swap.
Qed.

(** C5, the claim as stated fails: two writable events in a row for a
    transport that is still not writable lead to two error signals when
    the second arrives 30000 ms or more after the first.  The first
    watchdog has then been delivered already, there is nothing left for
    the second event to cancel, and it schedules a watchdog of its own. *)
Lemma watchdog_twice_counterexample :
  count is_SignalError
    (trace (ProcessMessages 40000
              (OnTransportWritable any_transport
                 (ProcessMessages 40000
                    (OnTransportWritable any_transport
                       (session0 working_manager))))))
  = 2%nat
  ∧ trace (ProcessMessages 40000
             (OnTransportWritable any_transport
                (ProcessMessages 40000
                   (OnTransportWritable any_transport
                      (session0 working_manager)))))
    = watchdog_fired ++ watchdog_fired.
Proof. split; reflexivity. Qed.

(** C5, amended.  [OnTransportConnecting] is [OnTransportWritable].  After
    either, whatever was pending before, the watchdog events of the session in
    the queue are: exactly one, due 30000 ms after the current time, when
    the transport has channels and is not writable, and none otherwise;
    the other events of the queue are untouched and nothing is signalled.
    So at most one watchdog is outstanding, and two such events for a
    transport that is not writable, the second less than 30000 ms after
    the first, are followed by one error signal when the thread then runs
    for 30000 ms or more, and by none before that. *)
Theorem watchdog_single t s :
  OnTransportConnecting t s = OnTransportWritable t s
  ∧ pending_watchdogs (OnTransportWritable t s)
    = (if HasChannels t && negb (writable t)
       then [{| phandler := this s; message_id := 101;
                msTrigger := now (signaling_thread s) + 30000 |}]
       else [])
  ∧ (List.length (pending_watchdogs (OnTransportWritable t s)) ≤ 1)%nat
  ∧ other_events (OnTransportWritable t s) = other_events s
  ∧ trace (OnTransportWritable t s) = trace s
  ∧ (∀ t' gap later,
       HasChannels t = true → writable t = false →
       HasChannels t' = true → writable t' = false →
       (0 ≤ gap < 30000)%Z → (0 ≤ later)%Z →
       trace (ProcessMessages later
                (OnTransportWritable t'
                   (ProcessMessages gap (OnTransportWritable t s))))
       = trace s ++ (if decide (30000 ≤ later)%Z then watchdog_fired else [])
       ∧ (count is_SignalError
            (trace (ProcessMessages later
                      (OnTransportWritable t'
                         (ProcessMessages gap (OnTransportWritable t s)))))
          ≤ count is_SignalError (trace s) + 1)%nat).
Proof.
  pose proof (OnTransportWritable_pending t s) as Hpending.
  split_and!.
  - done.
  - done.
  - rewrite Hpending. destruct (_ && _); simpl; lia.
  - apply OnTransportWritable_others.
  - apply OnTransportWritable_frame.
  - intros t' gap later Hc Hw Hc' Hw' Hgap Hlater.
    rewrite Hc, Hw in Hpending. simpl in Hpending.
    destruct (OnTransportWritable_frame t s) as (Hthis1 & Htrace1 & Hnow1).
    set (s1 := OnTransportWritable t s) in *.
    destruct (ProcessMessages_spec gap s1) as (Hthis2 & Hnow2 & _ & Htrace2).
    rewrite Hpending, Hnow1 in Htrace2.
    rewrite filter_cons, decide_False in Htrace2
      by (unfold kCallSetupTimeout; simpl; lia).
    simpl in Htrace2. rewrite app_nil_r, Htrace1 in Htrace2.
    set (s2 := ProcessMessages gap s1) in *.
    pose proof (OnTransportWritable_pending t' s2) as Hpending3.
    rewrite Hc', Hw' in Hpending3. simpl in Hpending3.
    destruct (OnTransportWritable_frame t' s2) as (Hthis3 & Htrace3 & Hnow3).
    set (s3 := OnTransportWritable t' s2) in *.
    destruct (ProcessMessages_spec later s3) as (_ & _ & _ & Htrace4).
    rewrite Hpending3, Hnow3, Htrace3, Htrace2 in Htrace4.
    rewrite filter_cons in Htrace4. simpl in Htrace4.
    assert (trace (ProcessMessages later s3)
            = trace s ++
              (if decide (30000 ≤ later)%Z then watchdog_fired else []))
      as Hfinal.
    { rewrite Htrace4. unfold kCallSetupTimeout.
      destruct (decide (30000 ≤ later)%Z).
      - rewrite decide_True by lia. done.
      - rewrite decide_False by lia. done. }
    split; [done|].
    rewrite Hfinal. unfold count. rewrite List.filter_app, length_app.
    case_decide; simpl; lia.
Qed.

Lemma watchdog_single_witness :
  trace (ProcessMessages 60000
           (OnTransportWritable any_transport
              (ProcessMessages 5000
                 (OnTransportConnecting any_transport
                    (session0 working_manager)))))
  = watchdog_fired.
Proof.
  refine (proj1 (proj2 (proj2 (proj2 (proj2 (proj2
            (watchdog_single any_transport (session0 working_manager))))))
            any_transport 5000%Z 60000%Z _ _ _ _ _ _));
    try reflexivity; lia.
Defined.

End Watchdog.

(** ** Remote candidates *)

Section RemoteCandidates.

Implicit Types (s : Session) (c : Candidate) (cands bucket : Candidates).

Lemma is_video_candidate_spec c :
  is_video_candidate c = true
  ↔ name c = "video_rtp" ∨ name c = "video_rtcp".
Proof.
  unfold is_video_candidate, kRtpVideoChannelStr, kRtcpVideoChannelStr.
  rewrite orb_true_iff, !String.eqb_eq. done.
Qed.

(** The partition loop keeps the order of the input in both buckets. *)
Lemma partition_loop cands (acc : Candidates * Candidates) :
  foldl partition_step acc cands
  = (acc.1 ++ filter (λ c, is_video_candidate c = false) cands,
     acc.2 ++ filter (λ c, is_video_candidate c = true) cands).
Proof.
  unfold Candidates in *.
  revert acc. induction cands as [|c cands IH]; intros [a v].
  - simpl. by rewrite !app_nil_r.
  - rewrite !filter_cons. simpl. rewrite IH. unfold partition_step.
    destruct (is_video_candidate c); simpl; by rewrite <- app_assoc.
Qed.

Lemma partition_candidates_filter cands :
  partition_candidates cands
  = (filter (λ c, is_video_candidate c = false) cands,
     filter (λ c, is_video_candidate c = true) cands).
Proof. unfold partition_candidates. by rewrite partition_loop. Qed.

Lemma forward_bucket_spec content missing bucket s :
  trace (forward_bucket content missing bucket s)
  = trace s ++ expected_calls content missing bucket
                 (GetTransportProxy content s)
  ∧ (∀ other, other ≠ content →
       GetTransportProxy other (forward_bucket content missing bucket s)
       = GetTransportProxy other s)
  ∧ GetTransportProxy content (forward_bucket content missing bucket s)
    = match bucket with
      | [] => GetTransportProxy content s
      | _ :: _ => (λ _, {| negotiated := true |})
                    <$> GetTransportProxy content s
      end.
Proof.
  unfold forward_bucket, expected_calls, GetTransportProxy.
  destruct bucket as [|c bucket]; [by rewrite app_nil_r|].
  destruct (transports_ s !! content) as [[[]]|] eqn:Hproxy; simpl.
  - by rewrite Hproxy.
  - rewrite <- app_assoc, lookup_insert_eq. split_and!; [done| |done].
    intros other Hne. by rewrite lookup_insert_ne.
  - by rewrite Hproxy.
Qed.

(** C6. The video bucket holds exactly the candidates named "video_rtp"
    or "video_rtcp" and the audio bucket all the others, both in the
    order of the input.  The calls made are those expected for the audio
    bucket followed by those expected for the video bucket: none for an
    empty bucket, the log line alone when the proxy is missing, and
    otherwise the candidates of the bucket handed over, after the
    completion of the negotiation when the proxy was not negotiated. *)
Theorem SetRemoteCandidates_routes cands s :
  (∀ c, c ∈ (partition_candidates cands).2
        ↔ c ∈ cands ∧ (name c = "video_rtp" ∨ name c = "video_rtcp"))
  ∧ (∀ c, c ∈ (partition_candidates cands).1
          ↔ c ∈ cands ∧ ¬ (name c = "video_rtp" ∨ name c = "video_rtcp"))
  ∧ (partition_candidates cands).1 ++ (partition_candidates cands).2
    ≡ₚ cands
  ∧ trace (SetRemoteCandidates cands s)
    = trace s
      ++ expected_calls CN_AUDIO "No audio TransportProxy exists"
           (partition_candidates cands).1 (GetTransportProxy CN_AUDIO s)
      ++ expected_calls CN_VIDEO "No video TransportProxy exists"
           (partition_candidates cands).2 (GetTransportProxy CN_VIDEO s)
  ∧ local_candidates_ (SetRemoteCandidates cands s) = local_candidates_ s.
Proof.
  rewrite partition_candidates_filter. unfold Candidates in *. simpl.
  split_and!.
  - intros c. rewrite list_elem_of_filter, is_video_candidate_spec. tauto.
  - intros c. rewrite list_elem_of_filter, <- is_video_candidate_spec.
    destruct (is_video_candidate c); split; intros [? ?]; split; done.
  - induction cands as [|c cands IH]; [done|].
    rewrite !filter_cons. destruct (is_video_candidate c); simpl.
    + by rewrite <- Permutation_middle, IH.
    + by rewrite IH.
  - unfold SetRemoteCandidates. rewrite partition_candidates_filter. simpl.
    match goal with |- context [forward_bucket CN_VIDEO ?msg ?b ?s1] =>
      destruct (forward_bucket_spec CN_VIDEO msg b s1) as (-> & _ & _) end.
    match goal with |- context [forward_bucket CN_AUDIO ?msg ?b s] =>
      destruct (forward_bucket_spec CN_AUDIO msg b s) as (-> & Hother & _) end.
    rewrite Hother by done. by rewrite <- app_assoc.
  - unfold SetRemoteCandidates, forward_bucket, Proxy_CompleteNegotiation.
    repeat (case_match; simpl; try done).
Qed.

(** The example of the specification: the first two candidates go to the
    video bucket, the last two to the audio bucket; the audio proxy is
    negotiated before it receives them, the video proxy is missing. *)
Example SetRemoteCandidates_example :
  partition_candidates mixed_candidates
  = (drop 2 mixed_candidates, take 2 mixed_candidates)
  ∧ trace (SetRemoteCandidates mixed_candidates audio_only_session)
    = [CompleteNegotiation CN_AUDIO;
       OnRemoteCandidates CN_AUDIO (drop 2 mixed_candidates);
       LOG LS_INFO "No video TransportProxy exists"].
Proof. split; reflexivity. Qed.

End RemoteCandidates.

(** ** Completion of the negotiation *)

Section Negotiation.

Implicit Types (s : Session) (m : MediaType) (b : bool) (c : Channel).

Lemma count_app (p : Effect → bool) (tr1 tr2 : list Effect) :
  count p (tr1 ++ tr2) = (count p tr1 + count p tr2)%nat.
Proof. unfold count. by rewrite List.filter_app, length_app. Qed.

Lemma Channel_Enable_inv m b s s' :
  Channel_Enable m b s = Some s' →
  ∃ c, channel m s = Some c
       ∧ s' = emit (Enable m b)
                (set_channel m
                   (Some {| channel_content := channel_content c;
                            rtcp := rtcp c; enabled := b;
                            muted := muted c |}) s).
Proof.
  unfold Channel_Enable. destruct (channel m s) as [c|]; simpl; [|done].
  intros [= <-]. eauto.
Qed.

Lemma Channel_Mute_inv m b s s' :
  Channel_Mute m b s = Some s' →
  ∃ c, channel m s = Some c
       ∧ s' = emit (Mute m b)
                (set_channel m
                   (Some {| channel_content := channel_content c;
                            rtcp := rtcp c; enabled := enabled c;
                            muted := b |}) s).
Proof.
  unfold Channel_Mute. destruct (channel m s) as [c|]; simpl; [|done].
  intros [= <-]. eauto.
Qed.

(** One mute block: what it reads, what it writes. *)
Lemma mute_if_present_inv m s s' :
  mute_if_present m s = Some s' →
  state s' = state s
  ∧ local_description s' = local_description s
  ∧ trace s' = trace s ++ mute_call m (local_description s)
  ∧ (∀ m', enabled <$> channel m' s' = enabled <$> channel m' s)
  ∧ (∀ m', m' ≠ m → muted <$> channel m' s' = muted <$> channel m' s)
  ∧ muted <$> channel m s'
    = match GetFirstMediaContent m (local_description s) with
      | Some info => Some (List.length (streams (description info)) =? 0)%nat
      | None => muted <$> channel m s
      end.
Proof.
  unfold mute_if_present, mute_call.
  destruct (GetFirstMediaContent m (local_description s)) as [info|].
  - intros (c & Hc & ->)%Channel_Mute_inv.
    destruct m; simpl in *; rewrite ?Hc; split_and!; try done;
      intros []; simpl; rewrite ?Hc; done.
  - intros [= <-]. by rewrite app_nil_r.
Qed.

Lemma mute_if_present_total m s :
  is_Some (channel m s) → is_Some (mute_if_present m s).
Proof.
  intros [c Hc]. unfold mute_if_present, Channel_Mute.
  destruct (GetFirstMediaContent _ _); rewrite ?Hc; simpl; eauto.
Qed.

(** The transition block, entered in [STATE_INIT]. *)
Lemma transition_inv s s' :
  (s1 ← Channel_Enable MEDIA_TYPE_AUDIO true
          (SetState STATE_RECEIVEDACCEPT (SetState STATE_SENTINITIATE s));
   Channel_Enable MEDIA_TYPE_VIDEO true s1) = Some s' →
  state s' = STATE_RECEIVEDACCEPT
  ∧ local_description s' = local_description s
  ∧ trace s' = trace s ++ transition_calls
  ∧ (∀ m', enabled <$> channel m' s' = Some true)
  ∧ (∀ m', muted <$> channel m' s' = muted <$> channel m' s).
Proof.
  intros (s1 & (v & Hv & ->)%Channel_Enable_inv
             & (w & Hw & ->)%Channel_Enable_inv)%bind_Some.
  simpl in *. split_and!; try done.
  - unfold transition_calls. by rewrite <- !app_assoc.
  - by intros [].
  - intros []; simpl; by rewrite ?Hv, ?Hw.
Qed.

(** The whole call, when it returns. *)
Lemma NegotiationDone_inv s s' :
  NegotiationDone s = Some s' →
  state s'
  = (if decide (state s = STATE_INIT) then STATE_RECEIVEDACCEPT else state s)
  ∧ local_description s' = local_description s
  ∧ trace s'
    = trace s
      ++ (if decide (state s = STATE_INIT) then transition_calls else [])
      ++ mute_calls (local_description s)
  ∧ (∀ m, enabled <$> channel m s'
          = if decide (state s = STATE_INIT) then Some true
            else enabled <$> channel m s)
  ∧ (∀ m, muted <$> channel m s'
          = match GetFirstMediaContent m (local_description s) with
            | Some info =>
                Some (List.length (streams (description info)) =? 0)%nat
            | None => muted <$> channel m s
            end).
Proof.
  unfold NegotiationDone.
  intros (s1 & H1 & (s2 & H2 & H3)%bind_Some)%bind_Some.
  apply mute_if_present_inv in H2
    as (Hst2 & Hld2 & Htr2 & Hen2 & Hoth2 & Hmu2).
  apply mute_if_present_inv in H3
    as (Hst3 & Hld3 & Htr3 & Hen3 & Hoth3 & Hmu3).
  assert (state s1
          = (if decide (state s = STATE_INIT) then STATE_RECEIVEDACCEPT
             else state s)
          ∧ local_description s1 = local_description s
          ∧ trace s1
            = trace s ++ (if decide (state s = STATE_INIT)
                          then transition_calls else [])
          ∧ (∀ m, enabled <$> channel m s1
                  = if decide (state s = STATE_INIT) then Some true
                    else enabled <$> channel m s)
          ∧ (∀ m, muted <$> channel m s1 = muted <$> channel m s))
    as (Hst1 & Hld1 & Htr1 & Hen1 & Hmu1).
  { destruct (decide (state s = STATE_INIT)).
    - by apply transition_inv.
    - injection H1 as <-. by rewrite app_nil_r. }
  rewrite Hld2, Hld1 in *.
  split_and!.
  - congruence.
  - congruence.
  - rewrite Htr3, Htr2, Htr1. unfold mute_calls. by rewrite <- !app_assoc.
  - intros m. by rewrite Hen3, Hen2, Hen1.
  - intros [].
    + rewrite Hoth3, Hmu2 by done. rewrite Hmu1. done.
    + rewrite Hmu3. rewrite Hoth2, Hmu1 by done. done.
Qed.

(** The call returns when both channels exist, and they still exist
    afterwards. *)
Lemma NegotiationDone_total s :
  is_Some (voice_channel_ s) → is_Some (video_channel_ s) →
  ∃ s', NegotiationDone s = Some s'
        ∧ is_Some (voice_channel_ s') ∧ is_Some (video_channel_ s').
Proof.
  intros [v Hv] [w Hw].
  assert (is_Some (NegotiationDone s)) as [s' Hs'].
  { unfold NegotiationDone.
    assert (∃ s1,
              (if decide (state s = STATE_INIT) then
                 s0 ← Channel_Enable MEDIA_TYPE_AUDIO true
                        (SetState STATE_RECEIVEDACCEPT
                           (SetState STATE_SENTINITIATE s));
                 Channel_Enable MEDIA_TYPE_VIDEO true s0
               else Some s) = Some s1
              ∧ is_Some (voice_channel_ s1) ∧ is_Some (video_channel_ s1))
      as (s1 & -> & Hv1 & [w1 Hw1]).
    { case_decide; [|by eauto].
      unfold Channel_Enable; simpl. rewrite Hv; simpl. rewrite Hw; simpl.
      eauto. }
    simpl.
    destruct (mute_if_present_total MEDIA_TYPE_AUDIO s1 Hv1) as [s2 Hs2].
    rewrite Hs2; simpl.
    apply mute_if_present_total; simpl.
    apply mute_if_present_inv in Hs2 as (_ & _ & _ & Hen & _).
    specialize (Hen MEDIA_TYPE_VIDEO). simpl in Hen. rewrite Hw1 in Hen.
    destruct (video_channel_ s2); [eauto | done]. }
  exists s'. split; [done|].
  apply NegotiationDone_inv in Hs' as (_ & _ & _ & Hen & _).
  pose proof (Hen MEDIA_TYPE_AUDIO) as Ha.
  pose proof (Hen MEDIA_TYPE_VIDEO) as Hb.
  simpl in *. rewrite Hv in Ha. rewrite Hw in Hb.
  split.
  - destruct (voice_channel_ s'); [eauto|]. by case_decide.
  - destruct (video_channel_ s'); [eauto|]. by case_decide.
Qed.

Lemma count_mute_calls (p : Effect → bool) ld n :
  (∀ m b, p (Mute m b) = false) →
  count p (concat (replicate n (mute_calls ld))) = 0%nat.
Proof.
  intros Hp. induction n as [|n IH]; [done|].
  simpl. rewrite count_app, IH.
  unfold mute_calls, mute_call, count.
  destruct (GetFirstMediaContent MEDIA_TYPE_AUDIO ld),
    (GetFirstMediaContent MEDIA_TYPE_VIDEO ld); simpl; by rewrite ?Hp.
Qed.

(** Calls made once the state has left [STATE_INIT]: mute calls only. *)
Lemma NegotiationDone_times_settled n s :
  state s ≠ STATE_INIT →
  is_Some (voice_channel_ s) → is_Some (video_channel_ s) →
  ∃ s', NegotiationDone_times n s = Some s'
        ∧ state s' = state s
        ∧ trace s'
          = trace s ++ concat (replicate n (mute_calls (local_description s)))
        ∧ (∀ m, enabled <$> channel m s' = enabled <$> channel m s).
Proof.
  revert s. induction n as [|n IH]; intros s Hst Hv Hw; simpl.
  - exists s. by rewrite app_nil_r.
  - destruct (NegotiationDone_total s Hv Hw) as (s1 & Hs1 & Hv1 & Hw1).
    rewrite Hs1; simpl.
    apply NegotiationDone_inv in Hs1 as (Hst1 & Hld1 & Htr1 & Hen1 & _).
    destruct (decide (state s = STATE_INIT)); [done|].
    destruct (IH s1) as (s' & Hs' & Hst' & Htr' & Hen'); [congruence|done..|].
    exists s'. split_and!; [done|congruence| |].
    + rewrite Htr', Htr1, Hld1. simpl. by rewrite <- app_assoc.
    + intros m. by rewrite Hen', Hen1.
Qed.

(** C1, the claim as stated fails: a call in a state other than
    [STATE_INIT] is not without effect.  Called twice on a session with
    an offer, the second call repeats the two mute calls; and on a
    session in [STATE_RECEIVEDACCEPT] whose audio content has lost its
    streams, the call mutes the voice channel. *)
Lemma NegotiationDone_again_counterexample :
  state <$> NegotiationDone offered_session = Some STATE_RECEIVEDACCEPT
  ∧ trace <$> NegotiationDone_times 1 offered_session
    = Some (trace offered_session ++ transition_calls
            ++ [Mute MEDIA_TYPE_AUDIO false; Mute MEDIA_TYPE_VIDEO true])
  ∧ trace <$> NegotiationDone_times 2 offered_session
    = Some (trace offered_session ++ transition_calls
            ++ [Mute MEDIA_TYPE_AUDIO false; Mute MEDIA_TYPE_VIDEO true]
            ++ [Mute MEDIA_TYPE_AUDIO false; Mute MEDIA_TYPE_VIDEO true])
  ∧ state silent_audio_session = STATE_RECEIVEDACCEPT
  ∧ muted <$> voice_channel_ silent_audio_session = Some false
  ∧ (s' ← NegotiationDone silent_audio_session; muted <$> voice_channel_ s')
    = Some true.
Proof. split_and!; reflexivity. Qed.

(** C1, amended.  On a session with both channels: called any number of
    times (at least once) from [STATE_INIT], [NegotiationDone] leaves
    the session in [STATE_RECEIVEDACCEPT] with both channels enabled,
    having signalled the two states and enabled each channel exactly
    once, in the first call; called in another state it changes neither
    the state nor the enabled flags.  The mute calls are made in every
    call, whatever the state, for each media type the local description
    has a content of. *)
Theorem NegotiationDone_transition s :
  is_Some (voice_channel_ s) → is_Some (video_channel_ s) →
  (state s = STATE_INIT →
     ∀ n, ∃ s',
       NegotiationDone_times (S n) s = Some s'
       ∧ state s' = STATE_RECEIVEDACCEPT
       ∧ trace s'
         = trace s ++ transition_calls
           ++ concat (replicate (S n) (mute_calls (local_description s)))
       ∧ (∀ m, enabled <$> channel m s' = Some true)
       ∧ count is_SignalState (trace s')
         = (count is_SignalState (trace s) + 2)%nat
       ∧ count is_Enable (trace s') = (count is_Enable (trace s) + 2)%nat)
  ∧ (state s ≠ STATE_INIT →
       ∃ s',
         NegotiationDone s = Some s'
         ∧ state s' = state s
         ∧ trace s' = trace s ++ mute_calls (local_description s)
         ∧ (∀ m, enabled <$> channel m s' = enabled <$> channel m s)).
Proof.
  intros Hv Hw.
  destruct (NegotiationDone_total s Hv Hw) as (s1 & Hs1 & Hv1 & Hw1).
  pose proof (NegotiationDone_inv s s1 Hs1) as (Hst1 & Hld1 & Htr1 & Hen1 & _).
  split.
  - intros Hinit n. destruct (decide (state s = STATE_INIT)); [|done].
    destruct (NegotiationDone_times_settled n s1)
      as (s' & Hs' & Hst' & Htr' & Hen'); [by rewrite Hst1|done..|].
    exists s'. simpl. rewrite Hs1; simpl.
    assert (trace s'
            = trace s ++ transition_calls
              ++ concat (replicate (S n) (mute_calls (local_description s))))
      as Htrace.
    { rewrite Htr', Htr1, Hld1. simpl. by rewrite <- !app_assoc. }
    split_and!; [done|congruence|done| | |].
    + intros m. by rewrite Hen', Hen1.
    + rewrite Htrace, !count_app, count_mute_calls by done.
      unfold count; simpl. lia.
    + rewrite Htrace, !count_app, count_mute_calls by done.
      unfold count; simpl. lia.
  - intros Hother. destruct (decide (state s = STATE_INIT)); [done|].
    exists s1. split_and!; done.
Qed.

Lemma NegotiationDone_transition_witness :
  (∃ s', NegotiationDone_times 3 offered_session = Some s'
         ∧ state s' = STATE_RECEIVEDACCEPT
         ∧ count is_Enable (trace s') = 2%nat)
  ∧ (∃ s', NegotiationDone silent_audio_session = Some s'
           ∧ state s' = STATE_RECEIVEDACCEPT).
Proof.
  destruct (NegotiationDone_transition offered_session)
    as [Hinit _]; [by eexists..|].
  destruct (NegotiationDone_transition silent_audio_session)
    as [_ Hother]; [by eexists..|].
  split.
  - destruct (Hinit eq_refl 2%nat) as (s' & Hs' & Hst & _ & _ & _ & Hen).
    exists s'. split_and!; [exact Hs' | exact Hst | exact Hen].
  - destruct Hother as (s' & Hs' & Hst & _); [discriminate|].
    exists s'. split; [exact Hs' | exact Hst].
Defined.

(** C10. When [NegotiationDone] returns, the muted flag of the voice
    channel is what it was if the local description has no audio content,
    and otherwise tells whether the first audio content has no stream;
    the same holds of the video channel and the video content.  The mute
    calls made are one for each media type that has a content, and no
    other.  The call does return when both channels exist. *)
Theorem NegotiationDone_mute_frame s :
  (∀ s', NegotiationDone s = Some s' →
     (GetFirstAudioContent (local_description s) = None →
        muted <$> voice_channel_ s' = muted <$> voice_channel_ s)
     ∧ (GetFirstVideoContent (local_description s) = None →
          muted <$> video_channel_ s' = muted <$> video_channel_ s)
     ∧ (∀ info, GetFirstAudioContent (local_description s) = Some info →
          muted <$> voice_channel_ s'
          = Some (List.length (streams (description info)) =? 0)%nat)
     ∧ (∀ info, GetFirstVideoContent (local_description s) = Some info →
          muted <$> video_channel_ s'
          = Some (List.length (streams (description info)) =? 0)%nat)
     ∧ ∃ calls, trace s' = trace s ++ calls
                ∧ List.filter is_Mute calls
                  = mute_calls (local_description s))
  ∧ (is_Some (voice_channel_ s) → is_Some (video_channel_ s) →
     is_Some (NegotiationDone s)).
Proof.
  split.
  - intros s' (_ & _ & Htr & _ & Hmu)%NegotiationDone_inv.
    pose proof (Hmu MEDIA_TYPE_AUDIO) as Ha.
    pose proof (Hmu MEDIA_TYPE_VIDEO) as Hb.
    unfold GetFirstAudioContent, GetFirstVideoContent. simpl in Ha, Hb.
    split_and!.
    + intros Hnone. by rewrite Hnone in Ha.
    + intros Hnone. by rewrite Hnone in Hb.
    + intros info Hsome. by rewrite Hsome in Ha.
    + intros info Hsome. by rewrite Hsome in Hb.
    + eexists. split; [exact Htr|].
      rewrite List.filter_app.
      assert (List.filter is_Mute (mute_calls (local_description s))
              = mute_calls (local_description s)) as ->.
      { unfold mute_calls, mute_call.
        by destruct (GetFirstMediaContent MEDIA_TYPE_AUDIO _),
          (GetFirstMediaContent MEDIA_TYPE_VIDEO _). }
      by case_decide.
  - intros Hv Hw.
    destruct (NegotiationDone_total s Hv Hw) as (s' & -> & _). by eexists.
Qed.

Lemma NegotiationDone_mute_frame_witness :
  ∃ s', NegotiationDone silent_audio_session = Some s'
        ∧ muted <$> video_channel_ s' = Some false
        ∧ muted <$> voice_channel_ s' = Some true.
Proof.
  destruct (NegotiationDone_mute_frame silent_audio_session) as [Hframe Htotal].
  destruct Htotal as [s' Hs']; [by eexists..|].
  exists s'.
  destruct (Hframe s' Hs') as (_ & Hvideo & Haudio & _).
  split_and!.
  - exact Hs'.
  - exact (Hvideo eq_refl).
  - exact (Haudio (media MEDIA_TYPE_AUDIO CN_AUDIO []) eq_refl).
Defined.

End Negotiation.

(** ** Initialization, termination and the factory *)

Section Lifecycle.

Implicit Types (s : Session) (options : MediaSessionOptions).


(** X1. [Initialize] returns true exactly when the session holds both
    channels afterwards, and it starts connecting the transport channels
    exactly in that case: the one call it records is either that one or
    an error log line. *)
Theorem Initialize_true_iff s :
  ((Initialize s).1 = true
   ↔ is_Some (voice_channel_ (Initialize s).2)
     ∧ is_Some (video_channel_ (Initialize s).2))
  ∧ ∃ e, trace (Initialize s).2 = trace s ++ [e]
         ∧ (e = SpeculativelyConnectAllTransportChannels
            ↔ (Initialize s).1 = true)
         ∧ (e = SpeculativelyConnectAllTransportChannels
            ∨ ∃ msg, e = LOG LS_ERROR msg).
Proof.
  unfold Initialize, CreateChannels; simpl.
  destruct (CreateVoiceChannel _ _ _) as [v|]; simpl.
  - destruct (CreateVideoChannel _ _ _ _) as [w|]; simpl.
    + split; [by split; eauto|]. eexists. split_and!; [done..|]. by left.
    + split; [split; [done | by intros [_ [? ?]]]|].
      eexists. split_and!; [done | done | eauto].
  - split; [split; [done | by intros [[? ?] _]]|].
    eexists. split_and!; [done | done | eauto].
Qed.

(** X2. On a new session, whatever [Initialize] managed to create is
    handed back by [Terminate], and so by the destructor: no handle is
    left, and the destroy calls name the voice channel if it was created
    and the video channel if it was created, also when [Initialize]
    failed half way. *)
Theorem Initialize_then_Terminate self cm th f :
  voice_channel_
    (WebRtcSession_destructor (Initialize (WebRtcSession self cm th f)).2)
  = None
  ∧ video_channel_
      (WebRtcSession_destructor (Initialize (WebRtcSession self cm th f)).2)
    = None
  ∧ trace (WebRtcSession_destructor (Initialize (WebRtcSession self cm th f)).2)
    = trace (Initialize (WebRtcSession self cm th f)).2
      ++ match CreateVoiceChannel cm CN_AUDIO true with
         | None => []
         | Some v =>
             DestroyVoiceChannel v
             :: match CreateVideoChannel cm CN_VIDEO true v with
                | None => []
                | Some w => [DestroyVideoChannel w]
                end
         end.
Proof.
  unfold WebRtcSession_destructor, Initialize, CreateChannels, Terminate; simpl.
  destruct (CreateVoiceChannel cm CN_AUDIO true) as [v|]; simpl.
  - destruct (CreateVideoChannel cm CN_VIDEO true v) as [w|]; simpl.
    + done.
    + done.
  - done.
Qed.



End Lifecycle.

(** ** Insertion of local candidates *)

Section Insertion.

Implicit Types (s : Session) (c : Candidate) (cands : list Candidate)
  (n : string) (t : Transport) (evs : list Event).

Lemma insert_candidate_prefix s c :
  local_candidates_ s `prefix_of` local_candidates_ (insert_candidate s c).
Proof.
  rewrite insert_candidate_local. destruct (CheckCandidate _ _); [done|].
  by apply prefix_app_r.
Qed.

Lemma InsertTransportCandidates_prefix cands s :
  local_candidates_ s
  `prefix_of` local_candidates_ (InsertTransportCandidates cands s).
Proof.
  unfold InsertTransportCandidates. revert s.
  induction cands as [|c cands IH]; intros s; simpl; [done|].
  etrans; [apply insert_candidate_prefix | apply IH].
Qed.

Lemma insert_candidate_name s c n :
  n ∈ name <$> local_candidates_ (insert_candidate s c)
  ↔ n ∈ name <$> local_candidates_ s ∨ n = name c.
Proof.
  rewrite insert_candidate_local.
  destruct (CheckCandidate (name c) s) eqn:Hchk.
  - apply CheckCandidate_scan_spec in Hchk. split; [auto|].
    intros [?| ->]; done.
  - rewrite fmap_app, elem_of_app. simpl. by rewrite list_elem_of_singleton.
Qed.

Lemma InsertTransportCandidates_name cands s n :
  n ∈ name <$> local_candidates_ (InsertTransportCandidates cands s)
  ↔ n ∈ name <$> local_candidates_ s ∨ n ∈ name <$> cands.
Proof.
  unfold InsertTransportCandidates. revert s.
  induction cands as [|c cands IH]; intros s; simpl.
  - split; [auto | by intros [?|?%elem_of_nil]].
  - rewrite IH, insert_candidate_name, elem_of_cons. tauto.
Qed.

Lemma InsertTransportCandidates_known cands s :
  name <$> cands ⊆ name <$> local_candidates_ s →
  InsertTransportCandidates cands s = s.
Proof.
  unfold InsertTransportCandidates.
  induction cands as [|c cands IH]; intros Hknown; simpl; [done|].
  rewrite fmap_cons in Hknown.
  assert (insert_candidate s c = s) as ->.
  { unfold insert_candidate, CheckCandidate.
    destruct (CheckCandidate_scan _ _) eqn:Hchk; [done|].
    exfalso. apply (CheckCandidate_false s (name c)); [done|].
    apply Hknown. by left. }
  apply IH. intros n Hn. apply Hknown. by right.
Qed.

(** X4. [InsertTransportCandidates] keeps the entries the set had, in
    their place; afterwards [CheckCandidate] finds exactly the names it
    found before and the names of the batch; and inserting the same batch
    again changes nothing. *)
Theorem InsertTransportCandidates_lookup cands s :
  local_candidates_ s
  `prefix_of` local_candidates_ (InsertTransportCandidates cands s)
  ∧ (∀ n, CheckCandidate n (InsertTransportCandidates cands s) = true
          ↔ CheckCandidate n s = true ∨ n ∈ name <$> cands)
  ∧ InsertTransportCandidates cands (InsertTransportCandidates cands s)
    = InsertTransportCandidates cands s.
Proof.
  split_and!.
  - apply InsertTransportCandidates_prefix.
  - intros n. unfold CheckCandidate.
    rewrite !CheckCandidate_scan_spec. apply InsertTransportCandidates_name.
  - apply InsertTransportCandidates_known.
    intros n Hn. apply InsertTransportCandidates_name. by right.
Qed.

(** X5. The first candidate with a given channel name wins: a candidate
    is in the set after [InsertTransportCandidates] exactly when it was
    there before, or its name was not there and it is the first candidate
    of the batch with that name. *)
Theorem InsertTransportCandidates_first_wins cands s c :
  c ∈ local_candidates_ (InsertTransportCandidates cands s)
  ↔ c ∈ local_candidates_ s
    ∨ ((name c ∉ name <$> local_candidates_ s)
       ∧ ∃ l1 l2, cands = l1 ++ c :: l2 ∧ (name c ∉ name <$> l1)).
Proof.
  unfold InsertTransportCandidates. revert s.
  induction cands as [|c0 cands IH]; intros s; simpl.
  - split; [auto|]. intros [?|(_ & l1 & l2 & Heq & _)]; [done|].
    by destruct l1.
  - rewrite IH, insert_candidate_local. clear IH.
    destruct (CheckCandidate (name c0) s) eqn:Hchk.
    + apply CheckCandidate_scan_spec in Hchk.
      split; intros [?|(Hnew & l1 & l2 & Heq & Hfirst)]; try (by left); right.
      * split; [done|]. exists (c0 :: l1), l2. split; [by rewrite Heq|].
        rewrite fmap_cons, not_elem_of_cons. split; [|done].
        intros Hname. apply Hnew. by rewrite Hname.
      * split; [done|]. destruct l1 as [|c1 l1]; simplify_eq/=; [done|].
        exists l1, l2. split; [done|].
        rewrite not_elem_of_cons in Hfirst. tauto.
    + apply CheckCandidate_false in Hchk.
      rewrite fmap_app, !elem_of_app. simpl. rewrite !list_elem_of_singleton.
      split.
      * intros [[?| ->]|(Hnew & l1 & l2 & Heq & Hfirst)].
        -- by left.
        -- right. split; [done|]. exists [], cands. split; [done|].
           simpl. apply not_elem_of_nil.
        -- right. apply Decidable.not_or in Hnew.
           destruct Hnew as [Hnew Hne]. split; [done|].
           exists (c0 :: l1), l2. split; [by rewrite Heq|].
           rewrite fmap_cons, not_elem_of_cons. done.
      * intros [?|(Hnew & l1 & l2 & Heq & Hfirst)]; [by left; left|].
        destruct l1 as [|c1 l1]; simplify_eq/=; [by left; right|].
        right. rewrite not_elem_of_cons in Hfirst.
        destruct Hfirst as [Hne Hfirst].
        split; [|by exists l1, l2].
        intros [?|?]; done.
Qed.

Lemma step_prefix s (e : Event) :
  local_candidates_ s `prefix_of` local_candidates_ (step s e).
Proof.
  destruct e as [o|t cands]; simpl; [done|].
  rewrite OnTransportCandidatesReady_local.
  case_decide; [done|]. apply InsertTransportCandidates_prefix.
Qed.

Lemma run_prefix evs s :
  local_candidates_ s `prefix_of` local_candidates_ (run evs s).
Proof.
  unfold run. revert s.
  induction evs as [|e evs IH]; intros s; simpl; [done|].
  etrans; [apply step_prefix | apply IH].
Qed.

(** A name that is offered ends up in the set, unless the set is full. *)
Lemma run_covers evs s n :
  n ∈ offered_names evs →
  n ∈ name <$> local_candidates_ (run evs s)
  ∨ List.length (local_candidates_ (run evs s)) = kAllowedCandidates.
Proof.
  unfold offered_names. revert s.
  induction evs as [|e evs IH]; intros s; simpl; [by intros ?%elem_of_nil|].
  rewrite elem_of_app. intros [Hhere|Hlater]; [|by apply IH].
  destruct e as [o|t cands]; simpl in Hhere; [by apply elem_of_nil in Hhere|].
  change (step s (EvCandidatesReady t cands))
    with (OnTransportCandidatesReady t cands s).
  destruct (decide (List.length (local_candidates_ s) = kAllowedCandidates))
    as [Hfull|Hfull].
  - right. rewrite OnTransportCandidatesReady_full by done.
    destruct (run_full evs s Hfull) as [-> _]. done.
  - left.
    assert (n ∈ name <$> local_candidates_
                           (OnTransportCandidatesReady t cands s)) as Hin.
    { rewrite OnTransportCandidatesReady_local, decide_False by done.
      apply InsertTransportCandidates_name. by right. }
    destruct (run_prefix evs (OnTransportCandidatesReady t cands s))
      as [k ->].
    rewrite fmap_app, elem_of_app. by left.
Qed.

Lemma step_observer_up_to_date s (e : Event) :
  e ≠ EvRegisterObserver None →
  observer_up_to_date s → observer_up_to_date (step s e).
Proof.
  unfold observer_up_to_date.
  intros He [Hobs Hinv]. destruct e as [[o|]|t cands]; simpl; [eauto|done|].
  rewrite OnTransportCandidatesReady_observer,
    OnTransportCandidatesReady_notifications,
    OnTransportCandidatesReady_local.
  split; [done|].
  destruct (decide (List.length (local_candidates_ s) = kAllowedCandidates))
    as [Hfull|Hfull].
  - rewrite decide_False by tauto. by rewrite app_nil_r.
  - destruct Hinv as [[_ ->]|[? _]]; [|done]. simpl.
    case_decide as Hfire.
    + right. by destruct Hfire as (_ & ? & _).
    + left. split; [|done]. intros Hnow. apply Hfire. done.
Qed.

Lemma run_observer_up_to_date evs s :
  Forall (λ e, e ≠ EvRegisterObserver None) evs →
  observer_up_to_date s → observer_up_to_date (run evs s).
Proof.
  unfold run. revert s.
  induction evs as [|e evs IH]; intros s Hevs Hinv; simpl; [done|].
  apply Forall_cons in Hevs as [He Hevs].
  by apply IH, step_observer_up_to_date.
Qed.

(** X6. The notification is sent exactly once when the environment is as
    the session expects it: an observer is registered before the first
    candidates and never removed, the candidates carry the names of four
    channels and no other, and each of the four names is offered at
    least once.  The observer then receives one candidate for each
    channel, and this is the set the session holds. *)
Theorem notification_exactly_once self cm th f o evs (chans : list string) :
  NoDup chans →
  List.length chans = kAllowedCandidates →
  Forall (λ e, e ≠ EvRegisterObserver None) evs →
  offered_names evs ⊆ chans →
  chans ⊆ offered_names evs →
  notifications
    (run (EvRegisterObserver (Some o) :: evs) (WebRtcSession self cm th f))
  = [local_candidates_
       (run (EvRegisterObserver (Some o) :: evs) (WebRtcSession self cm th f))]
  ∧ name <$> local_candidates_
               (run (EvRegisterObserver (Some o) :: evs)
                  (WebRtcSession self cm th f))
    ≡ₚ chans.
Proof.
  intros Hnd Hlen Hevs Hsub Hsup.
  change (run (EvRegisterObserver (Some o) :: evs) (WebRtcSession self cm th f))
    with (run evs (RegisterObserver (Some o) (WebRtcSession self cm th f))).
  set (s0 := RegisterObserver (Some o) (WebRtcSession self cm th f)).
  assert (NoDup (name <$> local_candidates_ (run evs s0))) as Hnames.
  { apply run_NoDup. simpl. constructor. }
  assert (name <$> local_candidates_ (run evs s0) ⊆ chans) as Hin.
  { apply run_names; [done|]. simpl. by intros ? ?%elem_of_nil. }
  assert (name <$> local_candidates_ (run evs s0) ⊆+ chans) as Hsubm.
  { by apply NoDup_submseteq. }
  assert (List.length (local_candidates_ (run evs s0)) = kAllowedCandidates)
    as Hfull.
  { destruct (decide (List.length (local_candidates_ (run evs s0))
                      = kAllowedCandidates)) as [|Hnot]; [done|].
    assert (chans ⊆+ name <$> local_candidates_ (run evs s0)) as Hrev.
    { apply NoDup_submseteq; [done|]. intros n Hn.
      destruct (run_covers evs s0 n (Hsup n Hn)); done. }
    apply submseteq_length in Hsubm, Hrev.
    rewrite length_fmap in Hsubm, Hrev. lia. }
  split.
  - destruct (run_observer_up_to_date evs s0 Hevs) as [_ [[? _]|[_ ?]]]; try done.
    split; [by eexists|]. left. done.
  - apply submseteq_length_Permutation; [done|].
    rewrite length_fmap. lia.
Qed.

Lemma notification_exactly_once_witness :
  notifications
    (run [EvRegisterObserver (Some 1);
          EvCandidatesReady any_transport (take 3 four_candidates);
          EvCandidatesReady any_transport four_candidates]
       (session0 working_manager))
  = [four_candidates].
Proof.
  refine (eq_trans (proj1 (notification_exactly_once 7 working_manager
            idle_thread simple_factory 1
            [EvCandidatesReady any_transport (take 3 four_candidates);
             EvCandidatesReady any_transport four_candidates]
            channel_names _ _ _ _ _)) _).
  - apply (bool_decide_unpack _). vm_compute. exact I.
  - reflexivity.
  - repeat constructor; discriminate.
  - apply (bool_decide_unpack _). vm_compute. exact I.
  - apply (bool_decide_unpack _). vm_compute. exact I.
  - reflexivity.
Defined.

End Insertion.

(** ** Null channel pointers *)

Section NullChannels.

Implicit Types (s : Session) (m : MediaType).

Lemma Channel_Enable_None m b s :
  Channel_Enable m b s = None ↔ channel m s = None.
Proof. unfold Channel_Enable. by destruct (channel m s). Qed.

Lemma Channel_Mute_None m b s :
  Channel_Mute m b s = None ↔ channel m s = None.
Proof. unfold Channel_Mute. by destruct (channel m s). Qed.

Lemma mute_if_present_None m s :
  mute_if_present m s = None
  ↔ is_Some (GetFirstMediaContent m (local_description s))
    ∧ channel m s = None.
Proof.
  unfold mute_if_present.
  destruct (GetFirstMediaContent m (local_description s)) as [info|].
  - rewrite Channel_Mute_None. split; [by eauto | by intros [_ ?]].
  - split; [done | by intros [[? ?] _]].
Qed.

Lemma fmap_None_iff {A B} (g : A → B) (x y : option A) :
  g <$> x = g <$> y → (x = None ↔ y = None).
Proof. by destruct x, y. Qed.

Lemma mute_if_present_keeps m m' s s' :
  mute_if_present m s = Some s' →
  local_description s' = local_description s
  ∧ (channel m' s' = None ↔ channel m' s = None).
Proof.
  intros (_ & Hld & _ & Hen & _)%mute_if_present_inv.
  split; [done|]. apply (fmap_None_iff enabled), Hen.
Qed.

(** The two mute blocks in a row. *)
Lemma mute_blocks_None s :
  (s2 ← mute_if_present MEDIA_TYPE_AUDIO s;
   mute_if_present MEDIA_TYPE_VIDEO s2) = None
  ↔ (is_Some (GetFirstMediaContent MEDIA_TYPE_AUDIO (local_description s))
     ∧ voice_channel_ s = None)
    ∨ (is_Some (GetFirstMediaContent MEDIA_TYPE_VIDEO (local_description s))
       ∧ video_channel_ s = None).
Proof.
  destruct (mute_if_present MEDIA_TYPE_AUDIO s) as [s2|] eqn:Haudio; simpl.
  - destruct (mute_if_present_keeps _ MEDIA_TYPE_VIDEO _ _ Haudio)
      as [Hld Hvideo].
    rewrite mute_if_present_None, Hld. simpl in *. rewrite Hvideo.
    split; [by right|]. intros [Hvoice|?]; [|done].
    assert (mute_if_present MEDIA_TYPE_AUDIO s = None) as Hnone
      by by apply mute_if_present_None.
    congruence.
  - split; [|done]. intros _. left. by apply mute_if_present_None in Haudio.
Qed.

(** The transition block. *)
Lemma transition_None s :
  (s1 ← Channel_Enable MEDIA_TYPE_AUDIO true
          (SetState STATE_RECEIVEDACCEPT (SetState STATE_SENTINITIATE s));
   Channel_Enable MEDIA_TYPE_VIDEO true s1) = None
  ↔ voice_channel_ s = None ∨ video_channel_ s = None.
Proof.
  unfold Channel_Enable; simpl.
  destruct (voice_channel_ s); simpl; [|split; [by left | done]].
  destruct (video_channel_ s); simpl; [|split; [by right | done]].
  split; [done | by intros [?|?]].
Qed.

(** X7. [NegotiationDone] goes through a null pointer, and has no result,
    exactly when a channel is missing that one of its steps uses: the
    voice channel when the state is [STATE_INIT] or the local description
    has an audio content, the video channel when the state is
    [STATE_INIT] or the local description has a video content.  So it
    fails before [Initialize] and after [Terminate] as long as the state
    is [STATE_INIT]. *)
Theorem NegotiationDone_fails_iff s :
  NegotiationDone s = None
  ↔ (uses_channel MEDIA_TYPE_AUDIO s ∧ voice_channel_ s = None)
    ∨ (uses_channel MEDIA_TYPE_VIDEO s ∧ video_channel_ s = None).
Proof.
  unfold NegotiationDone, uses_channel.
  destruct (decide (state s = STATE_INIT)) as [Hinit|Hother].
  - destruct (Channel_Enable MEDIA_TYPE_AUDIO true _ ≫= _) as [s1|] eqn:Hblock;
      simpl.
    + assert (voice_channel_ s ≠ None ∧ video_channel_ s ≠ None) as [Hv Hw].
      { split; intros Hnone;
          assert (Some s1 = None) as Habs
            by (rewrite <- Hblock; apply transition_None; auto);
          discriminate Habs. }
      apply transition_inv in Hblock as (_ & _ & _ & Hen & _).
      rewrite mute_blocks_None.
      pose proof (Hen MEDIA_TYPE_AUDIO) as Ha.
      pose proof (Hen MEDIA_TYPE_VIDEO) as Hb. simpl in Ha, Hb.
      split.
      * intros [[_ Hnone]|[_ Hnone]]; rewrite Hnone in *; discriminate.
      * intros [[_ ?]|[_ ?]]; done.
    + apply transition_None in Hblock.
      split; [|done]. intros _. destruct Hblock; [left|right]; auto.
  - simpl. rewrite mute_blocks_None.
    split; (intros [[? ?]|[? ?]]; [left|right]); split; auto.
    all: match goal with H : _ ∨ _ |- _ => by destruct H end.
Qed.

(** [SetRemoteRenderer] needs the video channel, [SetLocalRenderer]
    needs nothing. *)
Lemma SetRemoteRenderer_fails_iff n r s :
  SetRemoteRenderer n r s = None ↔ video_channel_ s = None.
Proof. unfold SetRemoteRenderer. by destruct (video_channel_ s). Qed.

End NullChannels.

(** ** Sequences of operations *)

Section Operations.

Implicit Types (s : Session) (op : Op) (ops : list Op) (m : MediaType)
  (tr : list Effect).

(** Unfolds the methods that are plain record updates. *)
Ltac unfold_methods :=
  unfold Initialize, CreateChannels, set_secure_policy, Terminate,
    ProvideOffer, ProvideAnswer, SetRemoteSessionDescription,
    SetRemoteCandidates, forward_bucket, Proxy_CompleteNegotiation,
    OnTransportRequestSignaling, OnTransportConnecting, OnTransportWritable,
    OnTransportChannelGone, RegisterObserver, SetLocalRenderer in *.

Ltac frame := unfold_methods; repeat case_match; simpl in *; eauto.

Lemma InsertTransportCandidates_fields cands s :
  this (InsertTransportCandidates cands s) = this s
  ∧ state (InsertTransportCandidates cands s) = state s
  ∧ signaling_thread (InsertTransportCandidates cands s) = signaling_thread s
  ∧ voice_channel_ (InsertTransportCandidates cands s) = voice_channel_ s
  ∧ video_channel_ (InsertTransportCandidates cands s) = video_channel_ s.
Proof.
  unfold InsertTransportCandidates. revert s.
  induction cands as [|c cands IH]; intros s; simpl; [done|].
  destruct (IH (insert_candidate s c)) as (-> & -> & -> & -> & ->).
  unfold insert_candidate. by destruct (CheckCandidate _ _).
Qed.

Lemma OnTransportCandidatesReady_fields t cands s :
  this (OnTransportCandidatesReady t cands s) = this s
  ∧ state (OnTransportCandidatesReady t cands s) = state s
  ∧ signaling_thread (OnTransportCandidatesReady t cands s)
    = signaling_thread s
  ∧ voice_channel_ (OnTransportCandidatesReady t cands s) = voice_channel_ s
  ∧ video_channel_ (OnTransportCandidatesReady t cands s) = video_channel_ s.
Proof.
  destruct (InsertTransportCandidates_fields cands s) as (? & ? & ? & ? & ?).
  unfold OnTransportCandidatesReady. repeat case_match; simpl; done.
Qed.

Lemma foldl_deliver_fields q s :
  state (foldl deliver s q) = state s
  ∧ local_candidates_ (foldl deliver s q) = local_candidates_ s
  ∧ voice_channel_ (foldl deliver s q) = voice_channel_ s
  ∧ video_channel_ (foldl deliver s q) = video_channel_ s.
Proof.
  revert s. induction q as [|msg q IH]; intros s; simpl; [done|].
  destruct (IH (deliver s msg)) as (-> & -> & -> & ->).
  unfold deliver, OnMessage. repeat case_match; done.
Qed.

Lemma NegotiationDone_fields s s' :
  NegotiationDone s = Some s' →
  this s' = this s
  ∧ local_candidates_ s' = local_candidates_ s
  ∧ signaling_thread s' = signaling_thread s.
Proof.
  assert (∀ m b s1 s2, Channel_Enable m b s1 = Some s2 →
            this s2 = this s1 ∧ local_candidates_ s2 = local_candidates_ s1
            ∧ signaling_thread s2 = signaling_thread s1) as Henable.
  { intros m b s1 s2 (c & _ & ->)%Channel_Enable_inv. by destruct m. }
  assert (∀ m s1 s2, mute_if_present m s1 = Some s2 →
            this s2 = this s1 ∧ local_candidates_ s2 = local_candidates_ s1
            ∧ signaling_thread s2 = signaling_thread s1) as Hmute.
  { intros m s1 s2. unfold mute_if_present.
    destruct (GetFirstMediaContent _ _); [|by intros [= <-]].
    intros (ch & _ & ->)%Channel_Mute_inv. by destruct m. }
  unfold NegotiationDone.
  intros (s1 & H1 & (s2 & H2 & H3)%bind_Some)%bind_Some.
  apply Hmute in H2 as (E1 & E2 & E3). apply Hmute in H3 as (F1 & F2 & F3).
  rewrite F1, F2, F3, E1, E2, E3.
  destruct (decide (state s = STATE_INIT)).
  - apply bind_Some in H1 as (s0 & G1 & G2).
    apply Henable in G1 as (G1 & G1' & G1'').
    apply Henable in G2 as (G2 & G2' & G2'').
    rewrite G2, G2', G2'', G1, G1', G1''. done.
  - by injection H1 as <-.
Qed.

Lemma exec_frame op s s' :
  exec op s = Some s' →
  this s' = this s
  ∧ (op ≠ OpNegotiationDone → state s' = state s)
  ∧ ((∀ t c, op ≠ OpTransportCandidatesReady t c) →
     local_candidates_ s' = local_candidates_ s)
  ∧ ((∀ t, op ≠ OpTransportConnecting t) →
     (∀ t, op ≠ OpTransportWritable t) →
     (∀ d, op ≠ OpProcessMessages d) →
     signaling_thread s' = signaling_thread s)
  ∧ (op ≠ OpTerminate → op ≠ OpInitialize →
     (is_Some (voice_channel_ s) → is_Some (voice_channel_ s'))
     ∧ (is_Some (video_channel_ s) → is_Some (video_channel_ s'))).
Proof.
  destruct op; simpl; intros Hexec.
  all: try (injection Hexec as <-).
  (* NegotiationDone *)
  6: { destruct (NegotiationDone_fields _ _ Hexec) as (? & ? & ?).
       apply NegotiationDone_inv in Hexec as (_ & _ & _ & Hen & _).
       split_and!; try done.
       intros _ _. split.
       - intros [v Hv].
         pose proof (Hen MEDIA_TYPE_AUDIO) as Ha. simpl in Ha.
         rewrite Hv in Ha. destruct (voice_channel_ s'); [eauto|].
         by case_decide.
       - intros [w Hw].
         pose proof (Hen MEDIA_TYPE_VIDEO) as Hb. simpl in Hb.
         rewrite Hw in Hb. destruct (video_channel_ s'); [eauto|].
         by case_decide. }
  (* SetRemoteRenderer *)
  8: { unfold SetRemoteRenderer in Hexec.
       destruct (video_channel_ s) eqn:Hvideo; simplify_eq/=.
       split_and!; done. }
  (* OnTransportCandidatesReady *)
  11: { destruct (OnTransportCandidatesReady_fields transport candidates s)
          as (-> & -> & -> & -> & ->).
        split_and!; try done. intros Hnot. by destruct (Hnot transport candidates). }
  (* ProcessMessages *)
  12: { unfold ProcessMessages.
        match goal with |- context [foldl deliver ?s0 ?q] =>
          destruct (foldl_deliver_frame q s0) as (-> & _ & _);
          destruct (foldl_deliver_fields q s0) as (-> & -> & -> & ->) end.
        simpl. split_and!; try done. intros _ _ Hnot. by destruct (Hnot cms). }
  all: split_and!; try done; try (intros; frame; fail).
  all: try (intros Hnot; exfalso; eapply Hnot; reflexivity).
  all: try (intros _ Hnot; exfalso; eapply Hnot; reflexivity).
Qed.

Lemma expected_calls_may_emit op content missing bucket proxy :
  (∃ cands, op = OpSetRemoteCandidates cands)
  ∨ (∃ remote cands, op = OpSetRemoteSessionDescription remote cands) →
  Forall (may_emit op) (expected_calls content missing bucket proxy).
Proof.
  intros [[cands ->]|(remote & cands & ->)];
    unfold expected_calls; repeat case_match; repeat constructor.
Qed.

Lemma watchdog_fired_may_emit cms (q : list DelayedMessage) :
  Forall (may_emit (OpProcessMessages cms)) (q ≫= λ _, watchdog_fired).
Proof. induction q as [|msg q IH]; simpl; repeat constructor. done. Qed.

Lemma SetRemoteCandidates_trace cands s :
  trace (SetRemoteCandidates cands s)
  = trace s
    ++ expected_calls CN_AUDIO "No audio TransportProxy exists"
         (partition_candidates cands).1 (GetTransportProxy CN_AUDIO s)
    ++ expected_calls CN_VIDEO "No video TransportProxy exists"
         (partition_candidates cands).2 (GetTransportProxy CN_VIDEO s).
Proof.
  unfold SetRemoteCandidates.
  match goal with |- context [forward_bucket CN_VIDEO ?msg ?b ?s1] =>
    destruct (forward_bucket_spec CN_VIDEO msg b s1) as (-> & _ & _) end.
  match goal with |- context [forward_bucket CN_AUDIO ?msg ?b s] =>
    destruct (forward_bucket_spec CN_AUDIO msg b s) as (-> & Hother & _) end.
  rewrite Hother by done. by rewrite <- app_assoc.
Qed.

(** Every operation appends to the trace, and only calls of its own. *)
Lemma exec_trace op s s' :
  exec op s = Some s' →
  ∃ tr, trace s' = trace s ++ tr ∧ Forall (may_emit op) tr.
Proof.
  destruct op; simpl; intros Hexec.
  all: try (injection Hexec as <-).
  (* NegotiationDone *)
  6: { apply NegotiationDone_inv in Hexec as (_ & _ & -> & _).
       eexists. split; [done|]. apply Forall_app. split.
       - case_decide; repeat constructor.
       - unfold mute_calls, mute_call. repeat case_match; repeat constructor. }
  (* SetRemoteRenderer *)
  8: { unfold SetRemoteRenderer in Hexec.
       destruct (video_channel_ s); simplify_eq/=.
       exists []. by rewrite app_nil_r. }
  (* SetRemoteSessionDescription, SetRemoteCandidates *)
  4, 6: simpl; rewrite SetRemoteCandidates_trace; simpl;
    (eexists; split; [done|]);
    apply Forall_app; split; apply expected_calls_may_emit; eauto.
  (* OnTransportCandidatesReady *)
  9: { unfold OnTransportCandidatesReady.
       destruct (InsertTransportCandidates_frame candidates s) as [Htr _].
       repeat case_match; simpl; rewrite ?Htr.
       all: first [ by exists []; rewrite app_nil_r
                  | eexists; split; [done|]; repeat constructor ]. }
  (* ProcessMessages *)
  10: { destruct (ProcessMessages_spec cms s) as (_ & _ & _ & ->).
        eexists. split; [done|]. apply watchdog_fired_may_emit. }
  all: unfold_methods; repeat case_match; simpl; rewrite <- ?app_assoc.
  all: first [ by exists []; rewrite app_nil_r
             | eexists; split; [done|]; repeat constructor ].
Qed.

Lemma exec_all_cons op ops s s' :
  exec_all (op :: ops) s = Some s'
  ↔ ∃ s1, exec op s = Some s1 ∧ exec_all ops s1 = Some s'.
Proof. simpl. apply bind_Some. Qed.

(** X8. Over any sequence of operations the trace only grows, and every
    call made belongs to one of the operations of the sequence.  In
    particular the session signals an error only when the signalling
    thread delivers its messages, and hands a channel back to the channel
    manager only in [Terminate]. *)
Theorem exec_all_emits ops s s' :
  exec_all ops s = Some s' →
  ∃ tr, trace s' = trace s ++ tr
        ∧ Forall (λ e, ∃ op, op ∈ ops ∧ may_emit op e) tr
        ∧ (SignalError ∈ tr → ∃ cms, OpProcessMessages cms ∈ ops)
        ∧ (∀ c, DestroyVoiceChannel c ∈ tr ∨ DestroyVideoChannel c ∈ tr →
                OpTerminate ∈ ops).
Proof.
  intros Hexec.
  assert (∃ tr, trace s' = trace s ++ tr
                ∧ Forall (λ e, ∃ op, op ∈ ops ∧ may_emit op e) tr)
    as (tr & Htr & Hall).
  { revert s Hexec. induction ops as [|op ops IH]; intros s Hexec.
    - injection Hexec as <-. exists []. by rewrite app_nil_r.
    - apply exec_all_cons in Hexec as (s1 & Hop & Hrest).
      apply exec_trace in Hop as (tr1 & Htr1 & Hall1).
      apply IH in Hrest as (tr2 & Htr2 & Hall2).
      exists (tr1 ++ tr2). split; [by rewrite Htr2, Htr1, app_assoc|].
      apply Forall_app. split.
      + eapply Forall_impl; [exact Hall1|]. intros e He.
        exists op. split; [by left | done].
      + eapply Forall_impl; [exact Hall2|]. intros e (op' & ? & ?).
        exists op'. split; [by right | done]. }
  exists tr. split_and!; [done..| |].
  - intros Hin. rewrite Forall_forall in Hall.
    destruct (Hall _ Hin) as (op & Hop & Hemit).
    destruct op; try done. eauto.
  - intros c Hin. rewrite Forall_forall in Hall.
    destruct Hin as [Hin|Hin];
      destruct (Hall _ Hin) as (op & Hop & Hemit); by destruct op.
Qed.

Lemma exec_all_emits_witness :
  ∃ tr, trace (ProcessMessages 30000
                 (OnTransportWritable any_transport (session0 working_manager)))
        = trace (session0 working_manager) ++ tr
        ∧ SignalError ∈ tr.
Proof.
  destruct (exec_all_emits
              [OpTransportWritable any_transport; OpProcessMessages 30000]
              (session0 working_manager) _ eq_refl) as (tr & Htr & _).
  exists tr. split; [exact Htr|].
  apply (inj (app (trace (session0 working_manager)))) in Htr.
  rewrite <- Htr. vm_compute. apply list_elem_of_In. right. by left.
Defined.

Lemma may_emit_quiet op tr :
  Forall (may_emit op) tr →
  (op ≠ OpNegotiationDone →
     List.filter is_SignalState tr = [] ∧ List.filter is_Enable tr = [])
  ∧ ((∀ cms, op ≠ OpProcessMessages cms) → count is_SignalError tr = 0%nat)
  ∧ ((∀ t c, op ≠ OpTransportCandidatesReady t c) →
     omap candidates_ready_of tr = []).
Proof.
  induction 1 as [|e tr He Hall (IH1 & IH2 & IH3)]; [done|].
  split_and!.
  - intros Hop. destruct (IH1 Hop) as [E1 E2].
    destruct op, e; simpl in *; done.
  - intros Hop. specialize (IH2 Hop). unfold count in *.
    destruct op, e; simpl in *; try done. by destruct (Hop cms).
  - intros Hop. specialize (IH3 Hop).
    destruct op, e; simpl in *; try done. by destruct (Hop transport candidates).
Qed.

Lemma exec_settled op s s' :
  exec op s = Some s' → settled s → settled s'.
Proof.
  intros Hexec Hs.
  assert (op = OpNegotiationDone ∨ op ≠ OpNegotiationDone) as [->|Hop]
    by (destruct op; first [by left | by right]).
  - simpl in Hexec.
    apply NegotiationDone_inv in Hexec as (Hst & _ & Htr & _).
    assert (List.filter is_SignalState
              (mute_calls (local_description s)) = []
            ∧ List.filter is_Enable (mute_calls (local_description s)) = [])
      as [Hm1 Hm2].
    { unfold mute_calls, mute_call. by repeat case_match. }
    unfold settled. rewrite Hst, Htr, !List.filter_app, Hm1, Hm2.
    destruct Hs as [(Hinit & -> & ->)|(Hdone & -> & ->)].
    + right. destruct (decide (state s = STATE_INIT)); done.
    + right. rewrite Hdone. by destruct (decide _).
  - destruct (exec_frame _ _ _ Hexec) as (_ & Hst & _).
    apply exec_trace in Hexec as (tr & Htr & Hall).
    destruct (may_emit_quiet _ _ Hall) as ([Hq1 Hq2] & _); [done|].
    unfold settled.
    rewrite Hst, Htr, !List.filter_app, Hq1, Hq2, !app_nil_r by done. done.
Qed.

(** X9. Whatever is done to a new session, and in whatever order, it is
    found in [STATE_INIT] with nothing signalled and no channel enabled,
    or in [STATE_RECEIVEDACCEPT] with the two states signalled and the two
    channels enabled exactly once: there is no way back to [STATE_INIT],
    no rest in [STATE_SENTINITIATE] and no second transition. *)
Theorem state_machine_invariant self cm th f ops s' :
  exec_all ops (WebRtcSession self cm th f) = Some s' →
  settled s'
  ∧ ∀ ops' s'', exec_all ops' s' = Some s'' →
      state s' = STATE_RECEIVEDACCEPT → state s'' = STATE_RECEIVEDACCEPT.
Proof.
  assert (∀ ops s s', settled s → exec_all ops s = Some s' → settled s')
    as Hkeep.
  { clear. intros ops. induction ops as [|op ops IH]; intros s s' Hs Hexec.
    - by injection Hexec as <-.
    - apply exec_all_cons in Hexec as (s1 & Hop & Hrest).
      eapply IH; [|exact Hrest]. by eapply exec_settled. }
  intros Hexec.
  assert (settled s') as Hs'.
  { eapply Hkeep; [|exact Hexec]. left. done. }
  split; [done|].
  intros ops' s'' Hexec' Hdone.
  destruct (Hkeep ops' s' s'' Hs' Hexec') as [(_ & Hnone & _)|(? & _)]; [|done].
  exfalso.
  apply exec_all_emits in Hexec' as (tr & Htr & _).
  destruct Hs' as [(Hinit & _)|(_ & Hsig & _)]; [congruence|].
  rewrite Htr, List.filter_app, Hsig in Hnone. discriminate.
Qed.

Lemma state_machine_invariant_witness :
  ∃ s', exec_all [OpInitialize;
                  OpProvideOffer {| has_audio := true; has_video := true |};
                  OpNegotiationDone; OpTerminate; OpInitialize;
                  OpNegotiationDone]
          (session0 working_manager) = Some s'
        ∧ settled s'.
Proof.
  match goal with |- ∃ s', ?run = Some s' ∧ _ =>
    assert (is_Some run) as [s' Hs']
      by (vm_compute; eexists; reflexivity) end.
  exists s'. split; [exact Hs'|].
  exact (proj1 (state_machine_invariant 7 working_manager idle_thread
                  simple_factory _ s' Hs')).
Defined.

Lemma exec_candidates op s s' :
  exec op s = Some s' →
  (NoDup (name <$> local_candidates_ s) →
   NoDup (name <$> local_candidates_ s'))
  ∧ (notified_at_most_once s → notified_at_most_once s')
  ∧ local_candidates_ s `prefix_of` local_candidates_ s'.
Proof.
  intros Hexec.
  assert ((∃ t c, op = OpTransportCandidatesReady t c)
          ∨ (∀ t c, op ≠ OpTransportCandidatesReady t c))
    as [(t & c & ->)|Hop']
    by (destruct op; first [by left; eauto | by right]).
  - injection Hexec as <-.
    change (OnTransportCandidatesReady t c s)
      with (step s (EvCandidatesReady t c)).
    split_and!;
      [apply step_NoDup | apply step_notified_at_most_once | apply step_prefix].
  - destruct (exec_frame _ _ _ Hexec) as (_ & _ & Hlocal & _).
    apply exec_trace in Hexec as (tr & Htr & Hall).
    destruct (may_emit_quiet _ _ Hall) as (_ & _ & Hquiet).
    unfold notified_at_most_once, notifications.
    rewrite Hlocal, Htr, omap_app, Hquiet, app_nil_r by done. done.
Qed.

(** X10. Whatever is done to a new session, no two entries of the local
    candidate set carry the same channel name, the observer has been
    notified at most once (and then with the four candidates the session
    holds), and no operation ever removes or replaces an entry: the set
    before is a prefix of the set after. *)
Theorem candidates_invariant_all_ops self cm th f ops s' :
  exec_all ops (WebRtcSession self cm th f) = Some s' →
  NoDup (name <$> local_candidates_ s')
  ∧ notified_at_most_once s'
  ∧ ∀ ops' s'', exec_all ops' s' = Some s'' →
      local_candidates_ s' `prefix_of` local_candidates_ s''.
Proof.
  intros Hexec. split_and!.
  - revert Hexec.
    assert (NoDup (name <$> local_candidates_ (WebRtcSession self cm th f)))
      as Hstart by (simpl; constructor).
    revert Hstart. generalize (WebRtcSession self cm th f).
    induction ops as [|op ops IH]; intros s Hs Hexec.
    + by injection Hexec as <-.
    + apply exec_all_cons in Hexec as (s1 & Hop & Hrest).
      eapply IH; [|exact Hrest]. by eapply exec_candidates.
  - revert Hexec.
    assert (notified_at_most_once (WebRtcSession self cm th f))
      as Hstart by (by left).
    revert Hstart. generalize (WebRtcSession self cm th f).
    induction ops as [|op ops IH]; intros s Hs Hexec.
    + by injection Hexec as <-.
    + apply exec_all_cons in Hexec as (s1 & Hop & Hrest).
      eapply IH; [|exact Hrest]. by eapply exec_candidates.
  - clear Hexec. intros ops'. revert s'.
    induction ops' as [|op ops' IH]; intros s s'' Hexec.
    + by injection Hexec as <-.
    + apply exec_all_cons in Hexec as (s1 & Hop & Hrest).
      etrans; [eapply exec_candidates, Hop | by apply IH].
Qed.

Lemma candidates_invariant_all_ops_witness :
  ∃ s', exec_all [OpInitialize; OpRegisterObserver (Some 1);
                  OpTransportCandidatesReady any_transport five_candidates;
                  OpSetRemoteCandidates mixed_candidates;
                  OpTransportCandidatesReady any_transport four_candidates;
                  OpTerminate]
          (session0 working_manager) = Some s'
        ∧ NoDup (name <$> local_candidates_ s').
Proof.
  match goal with |- ∃ s', ?run = Some s' ∧ _ =>
    assert (is_Some run) as [s' Hs']
      by (vm_compute; eexists; reflexivity) end.
  exists s'. split; [exact Hs'|].
  exact (proj1 (candidates_invariant_all_ops 7 working_manager idle_thread
                  simple_factory _ s' Hs')).
Defined.

Lemma count_watchdog_fired (q : list DelayedMessage) :
  count is_SignalError (q ≫= λ _, watchdog_fired) = List.length q.
Proof.
  induction q as [|msg q IH]; [done|].
  change ((msg :: q) ≫= λ _, watchdog_fired)
    with (watchdog_fired ++ (q ≫= λ _, watchdog_fired)).
  rewrite count_app, IH. done.
Qed.

Lemma filter_split_length (P : DelayedMessage → Prop)
    `{∀ msg, Decision (P msg)} (q : list DelayedMessage) :
  (List.length (filter P q) + List.length (filter (λ msg, ¬ P msg) q))%nat
  = List.length q.
Proof.
  induction q as [|msg q IH]; [done|].
  rewrite !filter_cons. destruct (decide (P msg)).
  - rewrite decide_False by tauto. simpl. lia.
  - rewrite decide_True by done. simpl. lia.
Qed.

Lemma exec_watchdog op s s' :
  exec op s = Some s' →
  (List.length (pending_watchdogs s) ≤ 1 →
   List.length (pending_watchdogs s') ≤ 1)%nat
  ∧ (count is_SignalError (trace s') + List.length (pending_watchdogs s')
     ≤ count is_SignalError (trace s) + List.length (pending_watchdogs s)
       + (if starts_watchdog op then 1 else 0))%nat.
Proof.
  intros Hexec.
  assert ((∃ t, op = OpTransportConnecting t ∨ op = OpTransportWritable t)
          ∨ (∃ cms, op = OpProcessMessages cms)
          ∨ ((∀ t, op ≠ OpTransportConnecting t)
             ∧ (∀ t, op ≠ OpTransportWritable t)
             ∧ (∀ cms, op ≠ OpProcessMessages cms)))
    as [(t & Hop)|[(cms & ->)|(H1 & H2 & H3)]].
  { destruct op; first [ by left; eauto
                       | by right; left; eauto
                       | by right; right ]. }
  - assert (s' = OnTransportWritable t s) as ->
      by (destruct Hop as [-> | ->]; by injection Hexec as <-).
    assert (starts_watchdog op = HasChannels t && negb (writable t)) as ->
      by (by destruct Hop as [-> | ->]).
    rewrite OnTransportWritable_pending.
    destruct (OnTransportWritable_frame t s) as (_ & -> & _).
    destruct (HasChannels t && negb (writable t)); simpl; lia.
  - injection Hexec as <-.
    destruct (ProcessMessages_spec cms s) as (_ & _ & -> & ->).
    rewrite count_app, count_watchdog_fired. simpl.
    pose proof (filter_split_length
                  (λ msg, (msTrigger msg ≤ now (signaling_thread s) + cms)%Z)
                  (pending_watchdogs s)) as Hsplit.
    lia.
  - destruct (exec_frame _ _ _ Hexec) as (Hthis & _ & _ & Hthread & _).
    apply exec_trace in Hexec as (tr & Htr & Hall).
    destruct (may_emit_quiet _ _ Hall) as (_ & Hquiet & _).
    unfold pending_watchdogs.
    rewrite Hthis, Hthread, Htr, count_app, Hquiet by done.
    split; [done|]. lia.
Qed.

(** X11. Over any sequence of operations on a session with at most one
    pending watchdog there is never more than one pending watchdog, and
    the error signals sent plus the watchdog still pending never exceed
    what there was at the start plus the number of transport events that
    started the watchdog (connecting or writable events of a transport
    that has channels and is not writable). *)
Theorem watchdog_accounting ops s s' :
  exec_all ops s = Some s' →
  (List.length (pending_watchdogs s) ≤ 1)%nat →
  (List.length (pending_watchdogs s') ≤ 1)%nat
  ∧ (count is_SignalError (trace s') + List.length (pending_watchdogs s')
     ≤ count is_SignalError (trace s) + List.length (pending_watchdogs s)
       + List.length (List.filter starts_watchdog ops))%nat.
Proof.
  revert s. induction ops as [|op ops IH]; intros s Hexec Hone.
  - injection Hexec as <-. simpl. split; lia.
  - apply exec_all_cons in Hexec as (s1 & Hop & Hrest).
    destruct (exec_watchdog _ _ _ Hop) as [Hone1 Hsum1].
    destruct (IH s1 Hrest (Hone1 Hone)) as [Hone' Hsum'].
    split; [done|]. simpl.
    destruct (starts_watchdog op); simpl; lia.
Qed.

Lemma watchdog_accounting_witness :
  ∃ s', exec_all [OpInitialize; OpTransportConnecting any_transport;
                  OpProcessMessages 10000;
                  OpTransportWritable any_transport;
                  OpProcessMessages 40000;
                  OpTransportWritable any_transport;
                  OpProcessMessages 20000]
          (session0 working_manager) = Some s'
        ∧ (count is_SignalError (trace s') + List.length (pending_watchdogs s')
           ≤ 3)%nat.
Proof.
  match goal with |- ∃ s', ?run = Some s' ∧ _ =>
    assert (is_Some run) as [s' Hs']
      by (vm_compute; eexists; reflexivity) end.
  exists s'. split; [exact Hs'|].
  refine (proj2 (watchdog_accounting _ (session0 working_manager) s' Hs' _)).
  vm_compute. lia.
Defined.

Lemma exec_present op s :
  op ≠ OpTerminate → op ≠ OpInitialize →
  is_Some (voice_channel_ s) → is_Some (video_channel_ s) →
  ∃ s', exec op s = Some s'
        ∧ is_Some (voice_channel_ s') ∧ is_Some (video_channel_ s').
Proof.
  intros Hterm Hinit Hv Hw.
  assert (is_Some (exec op s)) as [s' Hs'].
  { destruct op; simpl; try (by eexists).
    - destruct (NegotiationDone_total s Hv Hw) as (s' & -> & _). by eexists.
    - unfold SetRemoteRenderer. destruct Hw as [w ->]. by eexists. }
  exists s'. split; [done|].
  destruct (exec_frame _ _ _ Hs') as (_ & _ & _ & _ & Hkeep).
  destruct (Hkeep Hterm Hinit). auto.
Qed.

(** X12. After a successful [Initialize], any sequence of operations
    without [Terminate] and without another [Initialize] runs to its end:
    no method goes through a null channel pointer, and both channels are
    still there afterwards. *)
Theorem exec_all_total ops s :
  (Initialize s).1 = true →
  Forall (λ op, op ≠ OpTerminate ∧ op ≠ OpInitialize) ops →
  ∃ s', exec_all ops (Initialize s).2 = Some s'
        ∧ is_Some (voice_channel_ s') ∧ is_Some (video_channel_ s').
Proof.
  intros Hok Hops.
  assert (is_Some (voice_channel_ (Initialize s).2)
          ∧ is_Some (video_channel_ (Initialize s).2)) as [Hv Hw].
  { revert Hok. unfold Initialize, CreateChannels; simpl.
    destruct (CreateVoiceChannel _ _ _) as [v|]; simpl; [|done].
    destruct (CreateVideoChannel _ _ _ _) as [w|]; simpl; [|done].
    by split; eexists. }
  revert Hv Hw. generalize (Initialize s).2. clear Hok.
  induction Hops as [|op ops [Hterm Hinit] Hops IH]; intros s0 Hv Hw.
  - exists s0. done.
  - destruct (exec_present op s0 Hterm Hinit Hv Hw) as (s1 & Hs1 & Hv1 & Hw1).
    destruct (IH s1 Hv1 Hw1) as (s' & Hs' & ?).
    exists s'. split; [|done]. apply exec_all_cons. eauto.
Qed.

Lemma exec_all_total_witness :
  is_Some
    (exec_all [OpNegotiationDone; OpSetRemoteRenderer "remote" 3;
               OpProvideOffer {| has_audio := true; has_video := true |};
               OpNegotiationDone]
       (Initialize (session0 working_manager)).2).
Proof.
  destruct (exec_all_total
              [OpNegotiationDone; OpSetRemoteRenderer "remote" 3;
               OpProvideOffer {| has_audio := true; has_video := true |};
               OpNegotiationDone]
              (session0 working_manager) eq_refl) as (s' & Hs' & _).
  - repeat constructor; discriminate.
  - exists s'. exact Hs'.
Defined.

End Operations.

(** ** The watchdog over time *)

Section WatchdogTiming.

Implicit Types (s : Session) (t : Transport) (stretches : list Z).

Lemma total_time_nonneg stretches :
  Forall (λ cms, (0 ≤ cms)%Z) stretches → (0 ≤ total_time stretches)%Z.
Proof. induction 1; simpl; lia. Qed.

Lemma run_thread_idle stretches s :
  pending_watchdogs s = [] →
  trace (run_thread stretches s) = trace s
  ∧ pending_watchdogs (run_thread stretches s) = [].
Proof.
  unfold run_thread. revert s.
  induction stretches as [|cms stretches IH]; intros s Hidle; simpl; [done|].
  destruct (ProcessMessages_spec cms s) as (_ & _ & Hpending & Htrace).
  rewrite Hidle in Hpending, Htrace. simpl in Htrace.
  rewrite app_nil_r in Htrace.
  destruct (IH (ProcessMessages cms s) Hpending) as [-> ->]. done.
Qed.

Lemma run_thread_one stretches s (msg : DelayedMessage) :
  pending_watchdogs s = [msg] →
  (now (signaling_thread s) < msTrigger msg)%Z →
  Forall (λ cms, (0 ≤ cms)%Z) stretches →
  trace (run_thread stretches s)
  = trace s
    ++ (if decide (msTrigger msg
                   ≤ now (signaling_thread s) + total_time stretches)%Z
        then watchdog_fired else []).
Proof.
  unfold run_thread. revert s.
  induction stretches as [|cms stretches IH]; intros s Hone Hnotyet Hpos; simpl.
  - rewrite decide_False by lia. by rewrite app_nil_r.
  - apply Forall_cons in Hpos as [Hcms Hpos].
    pose proof (total_time_nonneg _ Hpos) as Hrest.
    destruct (ProcessMessages_spec cms s) as (_ & Hnow & Hpending & Htrace).
    rewrite Hone in Hpending, Htrace. rewrite filter_cons in Hpending, Htrace.
    destruct (decide (msTrigger msg ≤ now (signaling_thread s) + cms)%Z)
      as [Hdue|Hwait].
    + rewrite decide_False in Hpending by tauto.
      destruct (run_thread_idle stretches (ProcessMessages cms s) Hpending)
        as [Hquiet _].
      unfold run_thread in Hquiet. rewrite Hquiet, Htrace.
      rewrite decide_True by lia. simpl. done.
    + rewrite decide_True in Hpending by done.
      rewrite (IH (ProcessMessages cms s) Hpending) by (done || lia).
      rewrite Htrace, Hnow. simpl. rewrite app_nil_r.
      f_equal. destruct (decide _), (decide _); try done; lia.
Qed.

(** X13. An event of a transport that is writable, or has no channel,
    cancels the watchdog of the session whatever transport it was started
    for: however long the signalling thread runs afterwards, no error is
    signalled. *)
Theorem writable_cancels_watchdog t s stretches :
  HasChannels t && negb (writable t) = false →
  trace (run_thread stretches (OnTransportWritable t s)) = trace s
  ∧ pending_watchdogs (run_thread stretches (OnTransportWritable t s)) = [].
Proof.
  intros Hquiet.
  pose proof (OnTransportWritable_pending t s) as Hpending.
  rewrite Hquiet in Hpending.
  destruct (run_thread_idle stretches _ Hpending) as [-> ->].
  split; [|done]. apply OnTransportWritable_frame.
Qed.

Lemma writable_cancels_watchdog_witness :
  trace (run_thread [20000; 20000]%Z
           (OnTransportWritable {| HasChannels := true; writable := true |}
              (ProcessMessages 20000
                 (OnTransportConnecting any_transport
                    (session0 working_manager)))))
  = [].
Proof.
  exact (proj1 (writable_cancels_watchdog
                  {| HasChannels := true; writable := true |}
                  (ProcessMessages 20000
                     (OnTransportConnecting any_transport
                        (session0 working_manager)))
                  [20000; 20000]%Z eq_refl)).
Defined.

(** X14. After an event of a transport that has channels and is not
    writable, and with no further transport event, the error is
    signalled exactly once, as soon as the signalling thread has run for
    30000 ms in all, however the time is cut into stretches, and never
    again afterwards. *)
Theorem watchdog_fires_once t s stretches :
  HasChannels t = true → writable t = false →
  Forall (λ cms, (0 ≤ cms)%Z) stretches →
  trace (run_thread stretches (OnTransportWritable t s))
  = trace s
    ++ (if decide (30000 ≤ total_time stretches)%Z
        then watchdog_fired else []).
Proof.
  intros Hc Hw Hpos.
  pose proof (OnTransportWritable_pending t s) as Hpending.
  rewrite Hc, Hw in Hpending. simpl in Hpending.
  destruct (OnTransportWritable_frame t s) as (_ & Htrace & Hnow).
  rewrite (run_thread_one _ _ _ Hpending)
    by (done || (simpl; rewrite Hnow; unfold kCallSetupTimeout; lia)).
  rewrite Htrace, Hnow. simpl. unfold kCallSetupTimeout.
  f_equal. destruct (decide _), (decide _); try done; lia.
Qed.

Lemma watchdog_fires_once_witness :
  trace (run_thread [10000; 10000; 10000; 50000]%Z
           (OnTransportWritable any_transport (session0 working_manager)))
  = watchdog_fired.
Proof.
  refine (watchdog_fires_once any_transport (session0 working_manager)
            [10000; 10000; 10000; 50000]%Z eq_refl eq_refl _).
  repeat constructor; lia.
Defined.

End WatchdogTiming.

(** ** Remote descriptions and candidates over several calls *)

Section RemoteSequences.

Implicit Types (s : Session) (cands : list Candidate) (content : string).

Lemma count_is_CompleteNegotiation_expected content0 content missing
    (bucket : Candidates) proxy :
  count (is_CompleteNegotiation content)
    (expected_calls content0 missing bucket proxy)
  = match bucket, proxy with
    | _ :: _, Some p =>
        if negotiated p then 0%nat
        else if String.eqb content0 content then 1%nat else 0%nat
    | _, _ => 0%nat
    end.
Proof.
  unfold expected_calls, count.
  destruct bucket; [done|]. destruct proxy as [[[]]|]; simpl; try done.
  by destruct (String.eqb content0 content).
Qed.

Lemma forward_bucket_owed content0 missing (bucket : Candidates) content s :
  (count (is_CompleteNegotiation content)
     (trace (forward_bucket content0 missing bucket s))
   + negotiation_owed content (forward_bucket content0 missing bucket s))%nat
  = (count (is_CompleteNegotiation content) (trace s)
     + negotiation_owed content s)%nat.
Proof.
  destruct (forward_bucket_spec content0 missing bucket s)
    as (Htrace & Hother & Hsame).
  rewrite Htrace, count_app, count_is_CompleteNegotiation_expected.
  unfold negotiation_owed.
  destruct (String.eqb_spec content0 content) as [<-|Hne].
  - rewrite Hsame.
    destruct bucket; [lia|].
    destruct (GetTransportProxy content0 s) as [[[]]|]; simpl; lia.
  - rewrite Hother by done.
    destruct bucket; [lia|].
    destruct (GetTransportProxy content0 s) as [[[]]|]; simpl; lia.
Qed.

Lemma SetRemoteCandidates_owed cands content s :
  (count (is_CompleteNegotiation content) (trace (SetRemoteCandidates cands s))
   + negotiation_owed content (SetRemoteCandidates cands s))%nat
  = (count (is_CompleteNegotiation content) (trace s)
     + negotiation_owed content s)%nat.
Proof.
  unfold SetRemoteCandidates. by rewrite !forward_bucket_owed.
Qed.

(** X15. However many lists of remote candidates are set, the negotiation
    of a proxy is completed at most once, and not at all for a proxy that
    was negotiated or missing at the start: the completions made so far
    and the one still owed always add up to the same number. *)
Theorem CompleteNegotiation_at_most_once (lists : list Candidates) content s :
  (count (is_CompleteNegotiation content) (trace (set_remote_all lists s))
   + negotiation_owed content (set_remote_all lists s))%nat
  = (count (is_CompleteNegotiation content) (trace s)
     + negotiation_owed content s)%nat
  ∧ (count (is_CompleteNegotiation content) (trace (set_remote_all lists s))
     ≤ count (is_CompleteNegotiation content) (trace s) + 1)%nat.
Proof.
  assert ((count (is_CompleteNegotiation content)
             (trace (set_remote_all lists s))
           + negotiation_owed content (set_remote_all lists s))%nat
          = (count (is_CompleteNegotiation content) (trace s)
             + negotiation_owed content s)%nat) as Hsum.
  { unfold set_remote_all. revert s.
    induction lists as [|cands lists IH]; intros s; simpl; [done|].
    by rewrite IH, SetRemoteCandidates_owed. }
  split; [done|].
  assert (negotiation_owed content s ≤ 1)%nat.
  { unfold negotiation_owed. repeat case_match; lia. }
  lia.
Qed.

Example CompleteNegotiation_once_example :
  count (is_CompleteNegotiation CN_AUDIO)
    (trace (set_remote_all [mixed_candidates; []; mixed_candidates;
                            four_candidates] audio_only_session)) = 1%nat.
Proof. reflexivity. Qed.

Lemma SetRemoteCandidates_fields cands s :
  local_description (SetRemoteCandidates cands s) = local_description s
  ∧ remote_description (SetRemoteCandidates cands s) = remote_description s
  ∧ session_desc_factory_ (SetRemoteCandidates cands s)
    = session_desc_factory_ s.
Proof.
  unfold SetRemoteCandidates, forward_bucket, Proxy_CompleteNegotiation.
  repeat case_match; simpl; done.
Qed.

(** X16. [SetRemoteSessionDescription] returns the description it was
    given, and an answer provided next is built by the factory from that
    description, the options and the local description the session had,
    whatever candidates came with the remote description; the answer
    becomes the local description. *)
Theorem answer_uses_latest_remote remote cands options s :
  (SetRemoteSessionDescription remote cands s).1 = remote
  ∧ (ProvideAnswer options (SetRemoteSessionDescription remote cands s).2).1
    = CreateAnswer (session_desc_factory_ s) (secure (session_desc_factory_ s))
        remote options (local_description s)
  ∧ local_description
      (ProvideAnswer options (SetRemoteSessionDescription remote cands s).2).2
    = (ProvideAnswer options (SetRemoteSessionDescription remote cands s).2).1.
Proof.
  unfold SetRemoteSessionDescription, ProvideAnswer; simpl.
  destruct (SetRemoteCandidates_fields cands (set_remote_description remote s))
    as (-> & -> & ->).
  done.
Qed.

(** X17. Negotiation is completed lazily, per bucket.  An empty list of
    remote candidates changes nothing at all; a list without video
    candidates leaves the video proxy alone and says nothing about it,
    even when it is missing; a list with video candidates only does the
    same for the audio proxy. *)
Theorem SetRemoteCandidates_lazy cands s :
  SetRemoteCandidates [] s = s
  ∧ (Forall (λ c, is_video_candidate c = false) cands →
     GetTransportProxy CN_VIDEO (SetRemoteCandidates cands s)
     = GetTransportProxy CN_VIDEO s
     ∧ trace (SetRemoteCandidates cands s)
       = trace s ++ expected_calls CN_AUDIO "No audio TransportProxy exists"
                      cands (GetTransportProxy CN_AUDIO s))
  ∧ (Forall (λ c, is_video_candidate c = true) cands →
     GetTransportProxy CN_AUDIO (SetRemoteCandidates cands s)
     = GetTransportProxy CN_AUDIO s
     ∧ trace (SetRemoteCandidates cands s)
       = trace s ++ expected_calls CN_VIDEO "No video TransportProxy exists"
                      cands (GetTransportProxy CN_VIDEO s)).
Proof.
  split; [done|].
  assert (∀ b, Forall (λ c, is_video_candidate c = b) cands →
               filter (λ c, is_video_candidate c = b) cands = cands
               ∧ filter (λ c, is_video_candidate c = negb b) cands = [])
    as Hfilter.
  { intros b. induction 1 as [|c l Hc Hall [IH1 IH2]]; [done|].
    rewrite !filter_cons, decide_True, decide_False, IH1, IH2; try done.
    rewrite Hc. by destruct b. }
  split; intros Hall.
  - destruct (Hfilter false Hall) as [Haudio Hvideo]. simpl in Hvideo.
    rewrite SetRemoteCandidates_trace.
    unfold SetRemoteCandidates. rewrite partition_candidates_filter.
    unfold Candidates in *. simpl. rewrite Haudio, Hvideo. simpl.
    split; [|by rewrite app_nil_r].
    by apply forward_bucket_spec.
  - destruct (Hfilter true Hall) as [Hvideo Haudio]. simpl in Haudio.
    rewrite SetRemoteCandidates_trace.
    unfold SetRemoteCandidates. rewrite partition_candidates_filter.
    unfold Candidates in *. simpl. rewrite Haudio, Hvideo. simpl.
    split; [|done].
    by apply forward_bucket_spec.
Qed.

Lemma SetRemoteCandidates_lazy_witness :
  trace (SetRemoteCandidates (drop 2 mixed_candidates) audio_only_session)
  = [CompleteNegotiation CN_AUDIO;
     OnRemoteCandidates CN_AUDIO (drop 2 mixed_candidates)].
Proof.
  refine (proj2 (proj1 (proj2 (SetRemoteCandidates_lazy
            (drop 2 mixed_candidates) audio_only_session)) _)).
  repeat constructor.
Defined.

End RemoteSequences.
